(** * Disk scheduling simulator (app.py): FCFS, SSTF, SCAN and C-SCAN

    A shallow embedding of the four scheduling functions of [app.py] and of
    the two button handlers that evaluate them ("Run Simulation" and
    "Compare All Algorithms").

    Python integers are unbounded, hence [Z].  A Python list is modelled
    twice:
    - as a value ([list Z]) in the value-level model, on which the
      ordering and cost properties are stated;
    - as an object in a store ([gmap loc (list Z)]) in the object-level
      model, on which the absence of argument mutation is stated.
    The two models are tied together by a refinement lemma per function.

    True division [a / b] of two Python integers yields the binary64 float
    nearest to the exact quotient, or raises [OverflowError]; floats are the
    [spec_float] values of the standard library's IEEE 754 specification. *)

From Stdlib Require Import ZArith Lia Ascii DecimalString SpecFloat.
From Stdlib Require DecimalPos DecimalZ.
From stdpp Require Import base option list sorting strings gmap.
From Equations Require Import Equations.
From Equations.Prop Require Import Logic.

Local Open Scope Z_scope.

(** ** Python exceptions and results *)

Inductive exn : Set :=
| ZeroDivisionError
| OverflowError
| ValueError
| KeyError.

Inductive result (A : Type) : Type :=
| Ok (a : A)
| Raise (e : exn).
Arguments Ok {A} a.
Arguments Raise {A} e.

Definition result_bind {A B} (r : result A) (k : A → result B) : result B :=
  match r with
  | Ok a => k a
  | Raise e => Raise e
  end.

(** ** Python built-ins used by the scheduling functions *)

Module Py.

(** [sum(iterable)]: left-to-right accumulation starting from [0]. *)
Definition sum (l : list Z) : Z := foldl Z.add 0 l.

(** [range(a, b)] for natural bounds. *)
Definition range (a b : nat) : list nat := seq a (b - a).

(** [min(l, key=key)]: the first element whose key is minimal;
    [ValueError] on an empty list. *)
Definition min_from (key : Z → Z) (best : Z) (l : list Z) : Z :=
  foldl (λ best x, if bool_decide (key x < key best) then x else best) best l.

Definition min (key : Z → Z) (l : list Z) : result Z :=
  match l with
  | [] => Raise ValueError
  | x :: l' => Ok (min_from key x l')
  end.

(** [l.remove(x)]: drops the first element equal to [x];
    [ValueError] when there is none. *)
Fixpoint remove (x : Z) (l : list Z) : result (list Z) :=
  match l with
  | [] => Raise ValueError
  | y :: l' =>
      if decide (y = x) then Ok l'
      else result_bind (remove x l') (λ r, Ok (y :: r))
  end.

(** [sorted(l)] on integers: a stable merge sort, ascending. *)
Definition sorted (l : list Z) : list Z := merge_sort Z.le l.

End Py.

(** ** The seek total shared by the four functions

    [sum(abs(order[i] - order[i - 1]) for i in range(1, len(order)))].
    Every index produced by the range is within bounds, so the default of
    the total lookup is never used. *)

Definition seek_total (order : list Z) : Z :=
  Py.sum ((λ i : nat, Z.abs (order !!! i - order !!! (i - 1)%nat))
            <$> Py.range 1 (length order)).

(** ** Value-level model of the scheduling functions *)

Definition fcfs (requests : list Z) (head : Z) : result (list Z * Z) :=
  let order := [head] ++ requests in
  let total := seek_total order in
  Ok (order, total).

(** [sstf]: the [while reqs:] loop removes one element per iteration, so it
    is defined by well-founded recursion on the number of remaining
    requests.  The loop state is [(reqs, order, current)]. *)

Equations? sstf_loop (reqs order : list Z) (current : Z) : result (list Z)
  by wf (length reqs) lt :=
  sstf_loop [] order current := Ok order;
  sstf_loop (r :: rs) order current
    with Py.min (λ x, Z.abs (x - current)) (r :: rs) := {
    | Raise e := Raise e;
    | Ok nearest with inspect (Py.remove nearest (r :: rs)) := {
        | exist _ (Raise e) _ := Raise e;
        | exist _ (Ok reqs') E :=
            sstf_loop reqs' (order ++ [nearest]) nearest } }.
Proof.
  clear sstf_loop.
  assert (∀ l l', Py.remove nearest l = Ok l' → length l = S (length l'))
    as Hlen.
  { induction l as [|y l IH]; intros l'; simpl; [done|].
    destruct (decide (y = nearest)); [by intros [= ->]|].
    destruct (Py.remove nearest l) as [k|]; simpl; [|done].
    intros [= <-]. simpl. by rewrite (IH k). }
  apply (Hlen (r :: rs)) in E. simpl in E. lia.
Qed.

Definition sstf (requests : list Z) (head : Z) : result (list Z * Z) :=
  let reqs := requests in
  result_bind (sstf_loop reqs [head] head)
    (λ order, Ok (order, seek_total order)).

Definition scan (requests : list Z) (head disk_size : Z) (direction : string)
  : result (list Z * Z) :=
  let left := Py.sorted (filter (λ r, r < head) requests) in
  let right := Py.sorted (filter (λ r, r >= head) requests) in
  let order := [head] in
  let order :=
    if decide (direction = "right")
    then order ++ ((right ++ [disk_size - 1]) ++ reverse left)
    else order ++ ((reverse left ++ [0]) ++ right) in
  let total := seek_total order in
  Ok (order, total).

Definition c_scan (requests : list Z) (head disk_size : Z) (direction : string)
  : result (list Z * Z) :=
  let left := Py.sorted (filter (λ r, r < head) requests) in
  let right := Py.sorted (filter (λ r, r >= head) requests) in
  let order :=
    if decide (direction = "right")
    then (([head] ++ right) ++ [disk_size - 1; 0]) ++ left
    else (([head] ++ reverse left) ++ [0; disk_size - 1]) ++ reverse right in
  let total := seek_total order in
  Ok (order, total).

(** ** The handlers

    [result] is an error monad; stdpp's [x ← m; k] notation is used for
    sequencing statements that may raise. *)

#[export] Instance result_ret : MRet result := λ A a, Ok a.
#[export] Instance result_mbind : MBind result := λ A B k r, result_bind r k.
#[export] Instance result_fmap : FMap result :=
  λ A B f r, result_bind r (λ a, Ok (f a)).

Fixpoint result_mapM {A B} (f : A → result B) (l : list A) : result (list B) :=
  match l with
  | [] => Ok []
  | x :: l' => y ← f x; ys ← result_mapM f l'; Ok (y :: ys)
  end.

(** A Python [dict] keeps its keys in insertion order, which the comparison
    table relies on: it is an association list with unique keys. *)
Module Dict.
Abbreviation t V := (list (string * V)).

Section dict.
Context {V : Type}.

Fixpoint get (d : t V) (k : string) : result V :=
  match d with
  | [] => Raise KeyError
  | (k', v) :: d' => if decide (k' = k) then Ok v else get d' k
  end.

(** [d[k] = v]: overwrites in place, or appends a new key. *)
Fixpoint set (d : t V) (k : string) (v : V) : t V :=
  match d with
  | [] => [(k, v)]
  | (k', v') :: d' =>
      if decide (k' = k) then (k', v) :: d' else (k', v') :: set d' k v
  end.

Definition keys (d : t V) : list string := fst <$> d.
Definition values (d : t V) : list V := snd <$> d.
Definition items (d : t V) : list (string * V) := d.
End dict.
End Dict.

(** [len(l)] as a Python integer. *)
Definition len {A} (l : list A) : Z := Z.of_nat (length l).

(** A number as the handlers hold it: an [int] or a [float]. *)
Inductive number : Type :=
| PyInt (n : Z)
| PyFloat (x : spec_float).

(** An integer as an exact binary value: the whole integer is the mantissa,
    the exponent is [0]; nothing is rounded. *)
Definition exact_int (n : Z) : spec_float :=
  match n with
  | Z0 => S754_zero false
  | Zpos p => S754_finite false p 0
  | Zneg p => S754_finite true p 0
  end.

(** True division [a / b] of two integers: [ZeroDivisionError] for a zero
    divisor; otherwise the binary64 float nearest to the exact quotient,
    ties to even, whatever the size of the operands (a zero dividend gives a
    zero with the sign of the divisor), and [OverflowError] when the rounded
    quotient is beyond the largest float.  [SFdiv 53 1024] is the standard
    library's specification of binary64 division; applied to the two exact
    integers it rounds the exact quotient once. *)
Definition true_div (a b : Z) : result spec_float :=
  if decide (b = 0) then Raise ZeroDivisionError
  else
    match SFdiv 53 1024 (exact_int a) (exact_int b) with
    | S754_infinity _ => Raise OverflowError
    | quotient => Ok quotient
    end.

(** The module-level table of policies.  [scan] and [c_scan] are callable
    with two arguments through their defaults [disk_size=200] and
    [direction="right"]. *)
Definition policy : Type := list Z → Z → result (list Z * Z).

Definition algorithms : Dict.t policy :=
  [ ("FCFS", fcfs);
    ("SSTF", sstf);
    ("SCAN", λ requests head, scan requests head 200 "right");
    ("C-SCAN", λ requests head, c_scan requests head 200 "right") ].

(** What the "Run Simulation" handler displays. *)
Record report : Type := Report {
  rep_algo : string;
  rep_order : list Z;
  rep_total : Z;
  rep_avg_seek : spec_float;
  rep_throughput : number
}.

(** The "Run Simulation" handler, from the parsed [requests] on.  [algo],
    [head], [disk_size] and the two direction selections are the widget
    values the script reads. *)
Definition run_simulation (algo : string) (requests : list Z)
    (head disk_size : Z) (scan_direction cscan_direction : string)
  : result report :=
  '(order, total) ←
    (if decide (algo = "SCAN") then
       let direction := scan_direction in
       scan requests head disk_size direction
     else if decide (algo = "C-SCAN") then
       let direction := cscan_direction in
       c_scan requests head disk_size direction
     else
       selected_algo ← Dict.get algorithms algo;
       selected_algo requests head);
  avg_seek ← true_div total (len requests);
  throughput ←
    (if decide (total ≠ 0) then PyFloat <$> true_div (len requests) total
     else Ok (PyInt 0));
  Ok (Report algo order total avg_seek throughput).

(** What the "Compare All Algorithms" handler builds: the [orders]
    dictionary and the four columns of the table. *)
Record comparison : Type := Comparison {
  cmp_orders : Dict.t (list Z);
  cmp_algorithm : list string;
  cmp_total : list Z;
  cmp_avg : list spec_float;
  cmp_throughput : list number
}.

(** One iteration of [for name, fn in algorithms.items()]. *)
Definition compare_step (request_list : list Z) (head disk_size : Z)
    (acc : Dict.t Z * Dict.t (list Z)) (item : string * policy)
  : result (Dict.t Z * Dict.t (list Z)) :=
  let '(results, orders) := acc in
  let '(name, fn) := item in
  '(order, total) ←
    (if decide (name = "SCAN") then
       scan request_list head disk_size "right"
     else if decide (name = "C-SCAN") then
       c_scan request_list head disk_size "right"
     else fn request_list head);
  Ok (Dict.set results name total, Dict.set orders name order).

Fixpoint compare_loop (request_list : list Z) (head disk_size : Z)
    (acc : Dict.t Z * Dict.t (list Z)) (items : list (string * policy))
  : result (Dict.t Z * Dict.t (list Z)) :=
  match items with
  | [] => Ok acc
  | item :: items' =>
      acc' ← compare_step request_list head disk_size acc item;
      compare_loop request_list head disk_size acc' items'
  end.

Definition compare_all (request_list : list Z) (head disk_size : Z)
  : result comparison :=
  let results : Dict.t Z := [] in
  let orders : Dict.t (list Z) := [] in
  '(results, orders) ←
    compare_loop request_list head disk_size (results, orders)
      (Dict.items algorithms);
  avg ← result_mapM
    (λ a, r ← Dict.get results a; true_div r (len request_list))
    (Dict.keys results);
  throughput ← result_mapM
    (λ a, r ← Dict.get results a;
          if decide (r ≠ 0) then
            r' ← Dict.get results a;
            PyFloat <$> true_div (len request_list) r'
          else Ok (PyInt 0))
    (Dict.keys results);
  Ok (Comparison orders (Dict.keys results) (Dict.values results)
        avg throughput).

(** ** Object-level model: lists as mutable objects in a store

    A Python variable holding a list holds a reference.  The store maps a
    reference to the current items of the list object.  The primitives below
    are the list operations the four functions use; each one either builds a
    new object or updates an existing one in place, as Python does. *)

Definition loc : Set := positive.
Abbreviation heap := (gmap loc (list Z)).

Inductive outcome (A : Type) : Type :=
| Done (a : A) (h : heap)
| Raised (e : exn)
| Stuck
| OutOfFuel.
Arguments Done {A} a h.
Arguments Raised {A} e.
Arguments Stuck {A}.
Arguments OutOfFuel {A}.

Definition M (A : Type) : Type := heap → outcome A.

#[export] Instance M_ret : MRet M := λ A a h, Done a h.
#[export] Instance M_bind : MBind M := λ A B k m h,
  match m h with
  | Done a h' => k a h'
  | Raised e => Raised e
  | Stuck => Stuck
  | OutOfFuel => OutOfFuel
  end.

Module Obj.

(** A list display, comprehension or any call that returns a new list. *)
Definition new_list (l : list Z) : M loc :=
  λ h, let p := fresh (dom h) in Done p (<[p := l]> h).

Definition contents (p : loc) : M (list Z) :=
  λ h, match h !! p with Some l => Done l h | None => Stuck end.

Definition assign (p : loc) (l : list Z) : M unit :=
  λ h, match h !! p with Some _ => Done () (<[p := l]> h) | None => Stuck end.

Definition lift {A} (r : result A) : M A :=
  λ h, match r with Ok a => Done a h | Raise e => Raised e end.

(** [p.copy()] *)
Definition copy (p : loc) : M loc := l ← contents p; new_list l.
(** [p + q] *)
Definition add (p q : loc) : M loc :=
  a ← contents p; b ← contents q; new_list (a ++ b).
(** [p += q] extends [p] in place. *)
Definition iadd (p q : loc) : M unit :=
  a ← contents p; b ← contents q; assign p (a ++ b).
(** [p.append(x)] *)
Definition append (p : loc) (x : Z) : M unit :=
  a ← contents p; assign p (a ++ [x]).
(** [p.remove(x)] *)
Definition remove (p : loc) (x : Z) : M unit :=
  a ← contents p; a' ← lift (Py.remove x a); assign p a'.
(** [p[::-1]] *)
Definition reversed (p : loc) : M loc := a ← contents p; new_list (reverse a).
(** [[r for r in p if keep r]] *)
Definition comprehension (keep : Z → Prop) `{!∀ r, Decision (keep r)}
    (p : loc) : M loc :=
  a ← contents p; new_list (filter keep a).
(** [sorted(p)] *)
Definition sorted (p : loc) : M loc := a ← contents p; new_list (Py.sorted a).
(** [min(p, key=key)] *)
Definition min (key : Z → Z) (p : loc) : M Z := a ← contents p; lift (Py.min key a).
(** The truth value of a list: non-empty. *)
Definition truthy (p : loc) : M bool :=
  a ← contents p; mret (if a is [] then false else true).
(** The seek total of the list at [p]. *)
Definition seek_total (p : loc) : M Z := a ← contents p; mret (seek_total a).

Definition fcfs (requests : loc) (head : Z) : M (loc * Z) :=
  t ← new_list [head];
  order ← add t requests;
  total ← seek_total order;
  mret (order, total).

(** [while reqs: ...], at most [fuel] iterations. *)
Fixpoint sstf_while (fuel : nat) (reqs order : loc) (current : Z) : M unit :=
  match fuel with
  | O => λ _, OutOfFuel
  | S fuel' =>
      b ← truthy reqs;
      if b : bool then
        nearest ← min (λ x, Z.abs (x - current)) reqs;
        append order nearest;;
        remove reqs nearest;;
        sstf_while fuel' reqs order nearest
      else mret ()
  end.

Definition sstf (fuel : nat) (requests : loc) (head : Z) : M (loc * Z) :=
  reqs ← copy requests;
  order ← new_list [head];
  let current := head in
  sstf_while fuel reqs order current;;
  total ← seek_total order;
  mret (order, total).

Definition scan (requests : loc) (head disk_size : Z) (direction : string)
  : M (loc * Z) :=
  t ← comprehension (λ r, r < head) requests;
  left ← sorted t;
  t ← comprehension (λ r, r >= head) requests;
  right ← sorted t;
  order ← new_list [head];
  (if decide (direction = "right") then
     b ← new_list [disk_size - 1];
     t ← add right b;
     r ← reversed left;
     t ← add t r;
     iadd order t
   else
     r ← reversed left;
     b ← new_list [0];
     t ← add r b;
     t ← add t right;
     iadd order t);;
  total ← seek_total order;
  mret (order, total).

Definition c_scan (requests : loc) (head disk_size : Z) (direction : string)
  : M (loc * Z) :=
  t ← comprehension (λ r, r < head) requests;
  left ← sorted t;
  t ← comprehension (λ r, r >= head) requests;
  right ← sorted t;
  order ←
    (if decide (direction = "right") then
       h ← new_list [head];
       t ← add h right;
       b ← new_list [disk_size - 1; 0];
       t ← add t b;
       add t left
     else
       h ← new_list [head];
       r ← reversed left;
       t ← add h r;
       b ← new_list [0; disk_size - 1];
       t ← add t b;
       r ← reversed right;
       add t r);
  total ← seek_total order;
  mret (order, total).

End Obj.

(** ** The remaining functions of the script *)

(** [get_algorithm_callable]: the callable for a policy name.  The two
    direction selections are module-level variables that stay [None] unless
    the matching policy is the selected one; [disk_size] is the widget
    value. *)
Definition get_algorithm_callable (disk_size : Z)
    (scan_direction cscan_direction : option string) (algo_name : string)
  : result policy :=
  if decide (algo_name = "SCAN") then
    let dir_sel :=
      match scan_direction with None => "right" | Some d => d end in
    Ok (λ r h, scan r h disk_size dir_sel)
  else if decide (algo_name = "C-SCAN") then
    let dir_sel :=
      match cscan_direction with None => "right" | Some d => d end in
    Ok (λ r h, c_scan r h disk_size dir_sel)
  else Dict.get algorithms algo_name.

(** Strings are sequences of bytes (the UTF-8 encoding of the Python
    text).  Neither the comma nor the space occurs inside the encoding of
    another character, so splitting and removing on bytes is splitting and
    removing on characters. *)
Module Str.

(** [s.split(sep)] for a one-character separator: never an empty list. *)
Fixpoint split (sep : Ascii.ascii) (s : string) : list string :=
  match s with
  | EmptyString => [EmptyString]
  | String c s' =>
      if decide (c = sep) then EmptyString :: split sep s'
      else
        match split sep s' with
        | [] => [String c EmptyString]
        | piece :: pieces => String c piece :: pieces
        end
  end.

(** [s.replace(c, "")] for a one-character [c]. *)
Fixpoint remove (c : Ascii.ascii) (s : string) : string :=
  match s with
  | EmptyString => EmptyString
  | String c' s' => if decide (c' = c) then remove c s' else String c' (remove c s')
  end.

(** [sep.join(pieces)] *)
Fixpoint join (sep : string) (pieces : list string) : string :=
  match pieces with
  | [] => EmptyString
  | [piece] => piece
  | piece :: pieces' => piece +:+ sep +:+ join sep pieces'
  end.

End Str.

(** [animate]: what the page receives.  Each [go.Scatter] trace is kept as
    the pair of positions it joins; [fig] accumulates the traces, and every
    iteration shows the figure as it stands and then sleeps.  [speed] is the
    selected entry of [[0.1, 0.5, 1, 2, 3, 4, 5]], a float or an int. *)
Inductive st_event : Type :=
| st_write (text : string)
| st_plotly_chart (fig : list (Z * Z))
| time_sleep (speed : number).

Fixpoint animate_loop (order : list Z) (speed : number) (indices : list nat)
    (fig : list (Z * Z)) : list st_event :=
  match indices with
  | [] => []
  | i :: indices' =>
      let fig := fig ++ [(order !!! (i - 1)%nat, order !!! i)] in
      st_plotly_chart fig :: time_sleep speed ::
      animate_loop order speed indices' fig
  end.

Definition animate (order : list Z) (speed : number) : list st_event :=
  st_write "### 🎬 Disk Head Animation" ::
  animate_loop order speed (Py.range 1 (length order)) [].

(** [str(z)] of an integer: its decimal digits, after a [-] when it is
    negative. *)
Definition py_str (z : Z) : string := NilZero.string_of_int (Z.to_int z).

(** The text the "Generate Random Requests" button shows,
    [", ".join(map(str, sample))]; the [sample] drawn by [random.sample] is a
    parameter. *)
Definition random_requests_text (sample : list Z) : string :=
  Str.join ", " (py_str <$> sample).

(** The text-to-integer conversion [int(...)] is a built-in whose grammar
    (signs, surrounding white space, digit separators) is left open: the
    parsing functions take it as the parameter [py_int]. *)
Section parsing.
Variable py_int : string → result Z.

(** [parse_requests]: [None] when any piece is rejected (the bare [except]
    catches whatever [int] raises). *)
Definition parse_requests (req_str : string) : option (list Z) :=
  match result_mapM py_int (Str.split ","%char (Str.remove " "%char req_str)) with
  | Ok req_list => Some req_list
  | Raise _ => None
  end.

(** [list(map(int, req_str.split(',')))], as both handlers parse. *)
Definition requests_of (req_str : string) : result (list Z) :=
  result_mapM py_int (Str.split ","%char req_str).

(** The "Run Simulation" handler from the text field on. *)
Definition run_simulation_handler (algo req_str : string)
    (head disk_size : Z) (scan_direction cscan_direction : string)
  : result report :=
  requests ← requests_of req_str;
  run_simulation algo requests head disk_size scan_direction cscan_direction.

(** The "Compare All Algorithms" handler from the text field on. *)
Definition compare_all_handler (req_str : string) (head disk_size : Z)
  : result comparison :=
  request_list ← requests_of req_str;
  compare_all request_list head disk_size.

End parsing.

(** * Specification vocabulary

    The notions the statements below are written with.  None of them is
    part of the program. *)

(** The sum of absolute differences of consecutive entries, by recursion on
    the order. *)
Fixpoint path_cost (order : list Z) : Z :=
  match order with
  | [] => 0
  | x :: tl =>
      match tl with
      | [] => 0
      | y :: _ => Z.abs (y - x) + path_cost tl
      end
  end.

(** [x] is the first element of [l] with the least key. *)
Definition first_min (key : Z → Z) (l : list Z) (x : Z) : Prop :=
  ∃ k : nat,
    l !! k = Some x ∧
    (∀ y, y ∈ l → key x <= key y) ∧
    (∀ (j : nat) y, (j < k)%nat → l !! j = Some y → key x < key y).

(** [remove_first x l] is [l] after [l.remove(x)], and [l] itself when
    [x] does not occur. *)
Definition remove_first (x : Z) (l : list Z) : list Z :=
  match Py.remove x l with
  | Ok l' => l'
  | Raise _ => l
  end.

(** The requests left once the entries of [visited] have been served. *)
Definition unvisited (requests visited : list Z) : list Z :=
  foldl (λ rem x, remove_first x rem) requests visited.

(** The requests not yet visited when position [i] of [order] is chosen:
    positions [1 .. i-1] of [order] have been served. *)
Definition remaining (requests order : list Z) (i : nat) : list Z :=
  unvisited requests (take (i - 1) (drop 1 order)).

(** The entry before position [i] of [current :: visited]. *)
Definition previous (current : Z) (visited : list Z) (i : nat) : Z :=
  match i with
  | O => current
  | S j => visited !!! j
  end.

(** The number of boundary entries a policy adds to its order. *)
Definition boundary_entries (algo : string) : Z :=
  if decide (algo = "SCAN") then 1
  else if decide (algo = "C-SCAN") then 2
  else 0.

(** [len(requests) / total if total != 0 else 0]: a float, or the int
    [0] when the total is [0]. *)
Definition throughput_of (requests : list Z) (total : Z) : result number :=
  if decide (total = 0) then Ok (PyInt 0)
  else PyFloat <$> true_div (len requests) total.

(** [wp m h Q]: run from store [h], [m] finishes normally with a value and
    a store that satisfy [Q]. *)
Definition wp {A} (m : M A) (h : heap) (Q : A → heap → Prop) : Prop :=
  ∃ a h', m h = Done a h' ∧ Q a h'.

(** The postcondition shared by the four functions: the call returns a new
    list object holding the order the value-level function computes, and
    every object of the initial store [h] is unchanged. *)
Definition returns (res : result (list Z * Z)) (h : heap)
    (ret : loc * Z) (h' : heap) : Prop :=
  ∃ order,
    res = Ok (order, ret.2) ∧
    h' !! ret.1 = Some order ∧
    h !! ret.1 = None ∧
    ∀ p l, h !! p = Some l → h' !! p = Some l.

(** A call [m] on the list object [requests] leaves it unchanged: the call
    returns normally, the order it returns is a list object other than
    [requests] holding what the value-level function [res] computes, and
    [requests], like every other object of the caller's store, holds what it
    held before the call. *)
Definition leaves_unchanged (m : M (loc * Z)) (res : result (list Z * Z))
    (h : heap) (requests : loc) (l : list Z) : Prop :=
  ∃ o total h' order,
    m h = Done (o, total) h' ∧
    res = Ok (order, total) ∧
    h' !! o = Some order ∧
    o ≠ requests ∧
    h' !! requests = Some l ∧
    ∀ p k, h !! p = Some k → h' !! p = Some k.

(** The least of [bound] and the entries of [l]. *)
Definition lowest (bound : Z) (l : list Z) : Z := foldr Z.min bound l.

(** The greatest of [bound] and the entries of [l]. *)
Definition highest (bound : Z) (l : list Z) : Z := foldr Z.max bound l.

(** How often the character [c] occurs in [s]. *)
Fixpoint occurrences (c : Ascii.ascii) (s : string) : nat :=
  match s with
  | EmptyString => O
  | String c' s' => if decide (c' = c) then S (occurrences c s') else occurrences c s'
  end.

(** [head] and every request lie on the disk, [0 .. disk_size - 1]. *)
Definition in_range (requests : list Z) (head disk_size : Z) : Prop :=
  0 <= head <= disk_size - 1 ∧ Forall (λ r, 0 <= r <= disk_size - 1) requests.

(** [s] without its leading spaces. *)
Fixpoint lstrip (s : string) : string :=
  match s with
  | String c s' => if decide (c = " "%char) then lstrip s' else s
  | EmptyString => EmptyString
  end.

(** A reader of plain decimal text, leading spaces ignored: an instance of
    what [int] does on such text. *)
Definition decimal_int (s : string) : result Z :=
  match NilZero.int_of_string (lstrip s) with
  | Some d => Ok (Z.of_int d)
  | None => Raise ValueError
  end.

(** The order of a policy is the head followed by a rearrangement of the
    requests and of the boundary entries [extra] the policy adds. *)
Definition visits (res : result (list Z * Z)) (head : Z) (extra requests : list Z)
  : Prop :=
  ∃ tail, res = Ok (head :: tail, seek_total (head :: tail)) ∧
          tail ≡ₚ extra ++ requests.

(** The SCAN total on in-range input: up to the top boundary and down to
    the lowest request below the head, or down to [0] and up to the highest
    request at or above the head. *)
Definition scan_sweep_cost (requests : list Z) (head disk_size : Z)
    (direction : string) : Z :=
  if decide (direction = "right") then
    (disk_size - 1 - head) +
    (disk_size - 1 - lowest (disk_size - 1) (filter (λ r, r < head) requests))
  else
    head + highest 0 (filter (λ r, r >= head) requests).

(** The C-SCAN total on in-range input: to one boundary, across the whole
    disk, and on to the farthest request of the other side. *)
Definition c_scan_sweep_cost (requests : list Z) (head disk_size : Z)
    (direction : string) : Z :=
  if decide (direction = "right") then
    (disk_size - 1 - head) + (disk_size - 1) +
    highest 0 (filter (λ r, r < head) requests)
  else
    head + (disk_size - 1) +
    (disk_size - 1 - lowest (disk_size - 1) (filter (λ r, r >= head) requests)).

(** The moves of an order: each entry paired with the next one. *)
Fixpoint moves (order : list Z) : list (Z * Z) :=
  match order with
  | [] => []
  | x :: tl =>
      match tl with
      | [] => []
      | y :: _ => (x, y) :: moves tl
      end
  end.

(** * Properties *)

(** ** Sample runs *)

Example fcfs_ex : fcfs [82; 170; 43; 140; 24; 16; 190] 50 =
  Ok ([50; 82; 170; 43; 140; 24; 16; 190], 642).
Proof. reflexivity. Qed.

Example sstf_ex : sstf [82; 170; 43; 140; 24; 16; 190] 50 =
  Ok ([50; 43; 24; 16; 82; 140; 170; 190], 208).
Proof. reflexivity. Qed.

Example scan_ex : scan [82; 170; 43; 140; 24; 16; 190] 50 200 "right" =
  Ok ([50; 82; 140; 170; 190; 199; 43; 24; 16], 332).
Proof. vm_compute. reflexivity. Qed.

(** A request at the boundary does not replace the boundary entry. *)
Example scan_boundary_ex : scan [199; 10] 50 200 "right" =
  Ok ([50; 199; 199; 10], 338).
Proof. vm_compute. reflexivity. Qed.

Example cscan_ex : c_scan [82; 170; 43; 140; 24; 16; 190] 50 200 "left" =
  Ok ([50; 43; 24; 16; 0; 199; 190; 170; 140; 82], 366).
Proof. vm_compute. reflexivity. Qed.

Example run_ex :
  run_simulation "SCAN" [82; 170; 43; 140; 24; 16; 190] 50 200 "right" "right" =
  Ok (Report "SCAN" [50; 82; 140; 170; 190; 199; 43; 24; 16] 332
        (S754_finite false 6674978019138414 (-47))
        (PyFloat (S754_finite false 6077146485126452 (-58)))).
Proof. vm_compute. reflexivity. Qed.

Example obj_sstf_ex :
  match Obj.sstf 8 1%positive 50 {[ 1%positive := [82; 170; 43; 140; 24; 16; 190] ]} with
  | Done (o, total) h =>
      h !! o = Some [50; 43; 24; 16; 82; 140; 170; 190] ∧ total = 208 ∧
      h !! 1%positive = Some [82; 170; 43; 140; 24; 16; 190]
  | _ => False
  end.
Proof. vm_compute. done. Qed.

(** ** The seek total *)

Lemma sum_from (a : Z) (l : list Z) : foldl Z.add a l = a + Py.sum l.
Proof.
  unfold Py.sum. revert a.
  induction l as [|x l IH]; intros a; simpl; [lia|].
  rewrite (IH (a + x)), (IH (0 + x)). lia.
Qed.

Lemma sum_cons (x : Z) (l : list Z) : Py.sum (x :: l) = x + Py.sum l.
Proof. unfold Py.sum at 1. simpl. apply sum_from. Qed.

Lemma sum_nonneg (l : list Z) : Forall (λ x, 0 <= x) l → 0 <= Py.sum l.
Proof.
  induction 1 as [|x l Hx _ IH]; [done|]. rewrite sum_cons. lia.
Qed.

Lemma seek_total_cons2 (x y : Z) (l : list Z) :
  seek_total (x :: y :: l) = Z.abs (y - x) + seek_total (y :: l).
Proof.
  unfold seek_total, Py.range. simpl length.
  replace (S (S (length l)) - 1)%nat with (S (length l)) by lia.
  replace (S (length l) - 1)%nat with (length l) by lia.
  rewrite <- cons_seq, fmap_cons, sum_cons. f_equal.
  rewrite <- fmap_S_seq, <- list_fmap_compose. f_equal.
  apply list_fmap_ext. intros k i Hi.
  apply lookup_seq in Hi as [-> _]. simpl.
  by rewrite Nat.sub_0_r.
Qed.

Lemma seek_total_path_cost (order : list Z) : seek_total order = path_cost order.
Proof.
  induction order as [|x [|y l] IH]; [done..|].
  rewrite seek_total_cons2, IH. done.
Qed.

Lemma path_cost_nonneg (order : list Z) : 0 <= path_cost order.
Proof. induction order as [|x [|y l] IH]; simpl in *; lia. Qed.

Lemma seek_total_nonneg (order : list Z) : 0 <= seek_total order.
Proof. rewrite seek_total_path_cost. apply path_cost_nonneg. Qed.

(** ** [min] and [remove] *)

Section first_min.
Variable key : Z → Z.

Lemma min_from_snoc best l x :
  Py.min_from key best (l ++ [x]) =
  let b := Py.min_from key best l in
  if bool_decide (key x < key b) then x else b.
Proof. unfold Py.min_from. by rewrite foldl_snoc. Qed.

Lemma min_from_first_min best l :
  first_min key (best :: l) (Py.min_from key best l).
Proof.
  induction l as [|x l IH] using rev_ind.
  - exists 0%nat. split; [done|]. split; [|lia].
    intros y ->%list_elem_of_singleton. simpl. lia.
  - rewrite min_from_snoc. cbv zeta.
    destruct IH as (k & Hk & Hmin & Hfirst).
    rewrite app_comm_cons. case_bool_decide as Hlt.
    + exists (length (best :: l)). split; [by apply list_lookup_middle|].
      split.
      * intros y [Hy| ->%list_elem_of_singleton]%elem_of_app; [|lia].
        specialize (Hmin y Hy). lia.
      * intros j y Hj Hy. rewrite lookup_app_l in Hy by done.
        apply list_elem_of_lookup_2 in Hy. specialize (Hmin y Hy). lia.
    + exists k. split; [by apply lookup_app_l_Some|]. split.
      * intros y [Hy| ->%list_elem_of_singleton]%elem_of_app; [auto|lia].
      * intros j y Hj Hy. apply lookup_lt_Some in Hk.
        rewrite lookup_app_l in Hy by lia. eauto.
Qed.

Lemma min_first_min l :
  l ≠ [] → ∃ x, Py.min key l = Ok x ∧ first_min key l x.
Proof.
  destruct l as [|y l]; [done|]. intros _.
  eexists. split; [done|]. apply min_from_first_min.
Qed.

Lemma first_min_elem l x : first_min key l x → x ∈ l.
Proof. intros (k & Hk & _). by eapply list_elem_of_lookup_2. Qed.
End first_min.

Lemma remove_length x l l' :
  Py.remove x l = Ok l' → length l = S (length l').
Proof.
  revert l'. induction l as [|y l IH]; intros l'; simpl; [done|].
  destruct (decide (y = x)); [by intros [= ->]|].
  destruct (Py.remove x l) as [r|e]; simpl; [|done].
  intros [= <-]. simpl. by rewrite (IH r).
Qed.

Lemma remove_elem x l :
  x ∈ l → ∃ l', Py.remove x l = Ok l'.
Proof.
  induction l as [|y l IH]; [by intros ?%elem_of_nil|].
  intros Hx. simpl. destruct (decide (y = x)) as [->|Hne]; [eauto|].
  apply elem_of_cons in Hx as [->|Hx]; [done|].
  destruct (IH Hx) as [l' ->]. simpl. eauto.
Qed.

Lemma remove_Permutation x l l' :
  Py.remove x l = Ok l' → l ≡ₚ x :: l'.
Proof.
  revert l'. induction l as [|y l IH]; intros l'; simpl; [done|].
  destruct (decide (y = x)) as [->|Hne]; [by intros [= ->]|].
  destruct (Py.remove x l) as [r|e]; simpl; [|done].
  intros [= <-]. rewrite (IH r eq_refl). apply Permutation_swap.
Qed.

(** ** The SSTF loop *)

Lemma sstf_loop_cons r rs order current nearest reqs' :
  Py.min (λ x, Z.abs (x - current)) (r :: rs) = Ok nearest →
  Py.remove nearest (r :: rs) = Ok reqs' →
  sstf_loop (r :: rs) order current =
  sstf_loop reqs' (order ++ [nearest]) nearest.
Proof.
  intros Hmin Hrem. rewrite sstf_loop_equation_2, Hmin.
  cbn [sstf_loop_unfold_clause_2].
  generalize (Logic.inspect (Py.remove nearest (r :: rs))).
  intros [x e]. destruct x as [a|e']; simpl; congruence.
Qed.

Lemma sstf_loop_spec (n : nat) :
  ∀ reqs order current, length reqs = n →
  ∃ visited,
    sstf_loop reqs order current = Ok (order ++ visited) ∧
    visited ≡ₚ reqs ∧
    ∀ (i : nat) x, visited !! i = Some x →
      first_min (λ y, Z.abs (y - previous current visited i))
        (unvisited reqs (take i visited)) x.
Proof.
  induction n as [|n IH]; intros reqs order current Hlen.
  - apply nil_length_inv in Hlen as ->. exists [].
    rewrite sstf_loop_equation_1, app_nil_r. done.
  - destruct reqs as [|r rs]; [done|].
    destruct (min_first_min (λ y, Z.abs (y - current)) (r :: rs))
      as (nearest & Hmin & Hfirst); [done|].
    destruct (remove_elem nearest (r :: rs)) as [reqs' Hrem];
      [by eapply first_min_elem|].
    pose proof (remove_Permutation _ _ _ Hrem) as Hperm.
    destruct (IH reqs' (order ++ [nearest]) nearest) as (vis & Hloop & Hvis & Hstep).
    { apply remove_length in Hrem. simpl in *. lia. }
    exists (nearest :: vis).
    rewrite (sstf_loop_cons _ _ _ _ _ _ Hmin Hrem), Hloop, <- app_assoc.
    split; [done|]. split; [by rewrite Hperm, Hvis|].
    intros [|i] x Hx.
    + injection Hx as <-. done.
    + simpl in Hx. specialize (Hstep i x Hx).
      replace (previous current (nearest :: vis) (S i))
        with (previous nearest vis i).
      2:{ destruct i as [|i]; [done|]. simpl.
          destruct (vis !! _); done. }
      replace (unvisited (r :: rs) (take (S i) (nearest :: vis)))
        with (unvisited reqs' (take i vis)); [done|].
      unfold unvisited. cbn [take foldl].
      f_equal. unfold remove_first. by rewrite Hrem.
Qed.

Lemma unvisited_Permutation visited :
  ∀ reqs rest, reqs ≡ₚ visited ++ rest →
  reqs ≡ₚ visited ++ unvisited reqs visited.
Proof.
  induction visited as [|v vs IH]; intros reqs rest Hperm; [done|].
  destruct (remove_elem v reqs) as [reqs1 Hrem].
  { rewrite Hperm. apply elem_of_cons. by left. }
  pose proof (remove_Permutation _ _ _ Hrem) as Hreqs.
  unfold unvisited. cbn [foldl]. unfold remove_first at 2. rewrite Hrem.
  fold (unvisited reqs1 vs). rewrite Hreqs at 1. simpl. f_equiv.
  apply (IH reqs1 rest). apply (inj (cons v)). by rewrite <- Hreqs.
Qed.

(** What [sstf] returns, in terms of the list of visited requests. *)
Lemma sstf_spec (requests : list Z) (head : Z) :
  ∃ visited,
    sstf requests head = Ok (head :: visited, seek_total (head :: visited)) ∧
    visited ≡ₚ requests ∧
    ∀ (i : nat) x, visited !! i = Some x →
      first_min (λ y, Z.abs (y - previous head visited i))
        (unvisited requests (take i visited)) x.
Proof.
  destruct (sstf_loop_spec (length requests) requests [head] head eq_refl)
    as (visited & Hloop & Hperm & Hstep).
  exists visited. unfold sstf. cbv zeta. rewrite Hloop. done.
Qed.

(** C1: the SSTF order starts with the head, and every later entry is the
    first of the not yet visited requests at the least absolute distance from
    the entry before it.  [first_min] gives the three parts: the entry is
    among the remaining requests, no remaining request is nearer, and every
    remaining request met earlier in iteration order is strictly farther. *)
Theorem sstf_nearest_first (requests : list Z) (head : Z) :
  ∃ order,
    sstf requests head = Ok (order, seek_total order) ∧
    order !! 0%nat = Some head ∧
    ∀ (i : nat) prev x,
      (0 < i)%nat → order !! (i - 1)%nat = Some prev → order !! i = Some x →
      requests ≡ₚ take (i - 1) (drop 1 order) ++ remaining requests order i ∧
      first_min (λ r, Z.abs (r - prev)) (remaining requests order i) x.
Proof.
  destruct (sstf_spec requests head) as (visited & Hsstf & Hperm & Hstep).
  exists (head :: visited). split; [done|]. split; [done|].
  intros [|j] prev x Hi Hprev Hx; [lia|].
  simpl in Hx. unfold remaining.
  replace (S j - 1)%nat with j in * by lia. cbn [drop]. split.
  - apply (unvisited_Permutation _ _ (drop j visited)).
    by rewrite take_drop.
  - specialize (Hstep j x Hx).
    replace (previous head visited j) with prev in Hstep; [done|].
    destruct j as [|j]; simpl in *; [congruence|].
    by rewrite (list_lookup_total_correct _ _ _ Hprev).
Qed.

(** The first SSTF choice on the sample input is 43 (distance 7). *)
Lemma sstf_nearest_first_witness :
  ∃ order,
    sstf [82; 170; 43; 140; 24; 16; 190] 50 = Ok (order, seek_total order) ∧
    order !! 1%nat = Some 43 ∧
    first_min (λ r, Z.abs (r - 50)) [82; 170; 43; 140; 24; 16; 190] 43.
Proof.
  destruct (sstf_nearest_first [82; 170; 43; 140; 24; 16; 190] 50)
    as (order & Hsstf & Hhead & Hstep).
  exists order. split; [exact Hsstf|].
  assert (order = [50; 43; 24; 16; 82; 140; 170; 190]) as ->.
  { vm_compute in Hsstf. congruence. }
  split; [reflexivity|].
  exact (proj2 (Hstep 1%nat 50 43 (Nat.lt_0_succ 0) eq_refl eq_refl)).
Defined.

(** C10: the SSTF order without its leading head entry is a permutation of
    the requests. *)
Theorem sstf_permutation (requests : list Z) (head : Z) :
  ∃ order,
    sstf requests head = Ok (order, seek_total order) ∧
    order !! 0%nat = Some head ∧
    drop 1 order ≡ₚ requests.
Proof.
  destruct (sstf_spec requests head) as (visited & Hsstf & Hperm & _).
  by exists (head :: visited).
Qed.

(** C5: FCFS returns the head followed by the requests in input order, with
    the sum of absolute consecutive differences as total; on the sample input
    the total is 642. *)
Theorem fcfs_input_order (requests : list Z) (head : Z) :
  ∃ order total,
    fcfs requests head = Ok (order, total) ∧
    order = head :: requests ∧
    drop 1 order = requests ∧
    total = path_cost order ∧
    fcfs [82; 170; 43; 140; 24; 16; 190] 50 =
      Ok ([50; 82; 170; 43; 140; 24; 16; 190], 642).
Proof.
  exists (head :: requests), (seek_total (head :: requests)).
  repeat split. apply seek_total_path_cost.
Qed.

(** ** SCAN and C-SCAN *)

Lemma sorted_Sorted (l : list Z) : Sorted Z.le (Py.sorted l).
Proof. apply (Sorted_merge_sort Z.le). Qed.

Lemma sorted_Permutation (l : list Z) : Py.sorted l ≡ₚ l.
Proof. apply (merge_sort_Permutation Z.le). Qed.

Lemma partition_Permutation (head : Z) (requests : list Z) :
  filter (λ r, r >= head) requests ++ filter (λ r, r < head) requests
  ≡ₚ requests.
Proof.
  rewrite <- (filter_app_complement (λ r, r >= head) requests) at 3.
  f_equiv. apply reflexive_eq, list_filter_iff. intros r. lia.
Qed.

(** The two sorted halves every SCAN and C-SCAN run starts from. *)
Lemma partition_spec (head : Z) (requests : list Z) :
  let left := Py.sorted (filter (λ r, r < head) requests) in
  let right := Py.sorted (filter (λ r, r >= head) requests) in
  left ≡ₚ filter (λ r, r < head) requests ∧ Sorted Z.le left ∧
  right ≡ₚ filter (λ r, r >= head) requests ∧ Sorted Z.le right ∧
  Sorted (flip Z.le) (reverse left) ∧ Sorted (flip Z.le) (reverse right) ∧
  right ++ left ≡ₚ requests.
Proof.
  intros left right. subst left right.
  repeat split;
    auto using sorted_Sorted, sorted_Permutation, Sorted_reverse.
  rewrite !sorted_Permutation. apply partition_Permutation.
Qed.

(** C2: SCAN splits the requests into those below the head and those at or
    above it, each sorted ascending; toward-higher ("right") it visits the
    head, the right part ascending, [disk_size - 1], then the left part
    descending; otherwise the head, the left part descending, [0], then the
    right part ascending.  The order after the head is the requests plus
    exactly one boundary entry. *)
Theorem scan_order (requests : list Z) (head disk_size : Z) (direction : string) :
  ∃ left right order,
    left ≡ₚ filter (λ r, r < head) requests ∧ Sorted Z.le left ∧
    right ≡ₚ filter (λ r, r >= head) requests ∧ Sorted Z.le right ∧
    Sorted (flip Z.le) (reverse left) ∧
    scan requests head disk_size direction = Ok (order, seek_total order) ∧
    order = (if decide (direction = "right")
             then [head] ++ right ++ [disk_size - 1] ++ reverse left
             else [head] ++ reverse left ++ [0] ++ right) ∧
    drop 1 order ≡ₚ
      (if decide (direction = "right") then disk_size - 1 else 0) :: requests.
Proof.
  destruct (partition_spec head requests)
    as (Hl & Hls & Hr & Hrs & Hlr & _ & Hperm).
  eexists _, _, _. do 5 (split; [eassumption|]).
  unfold scan. cbv zeta. split; [reflexivity|].
  destruct (decide (direction = "right")); simpl.
  - split; [by rewrite <- app_assoc|].
    rewrite <- app_assoc. simpl. rewrite drop_0. rewrite <- Permutation_middle.
    by rewrite reverse_Permutation, Hperm.
  - split; [by rewrite <- app_assoc|].
    rewrite <- app_assoc. simpl. rewrite drop_0. rewrite <- Permutation_middle.
    rewrite reverse_Permutation. f_equiv.
    by rewrite (comm (++)).
Qed.

(** C3: C-SCAN uses the same two halves; toward-higher ("right") it visits
    the head, the right part ascending, [disk_size - 1], [0], then the left
    part ascending; otherwise the head, the left part descending, [0],
    [disk_size - 1], then the right part descending.  The order after the
    head is the requests plus both boundary entries. *)
Theorem c_scan_order (requests : list Z) (head disk_size : Z) (direction : string) :
  ∃ left right order,
    left ≡ₚ filter (λ r, r < head) requests ∧ Sorted Z.le left ∧
    right ≡ₚ filter (λ r, r >= head) requests ∧ Sorted Z.le right ∧
    Sorted (flip Z.le) (reverse left) ∧ Sorted (flip Z.le) (reverse right) ∧
    c_scan requests head disk_size direction = Ok (order, seek_total order) ∧
    order = (if decide (direction = "right")
             then [head] ++ right ++ [disk_size - 1; 0] ++ left
             else [head] ++ reverse left ++ [0; disk_size - 1] ++ reverse right) ∧
    drop 1 order ≡ₚ disk_size - 1 :: 0 :: requests.
Proof.
  destruct (partition_spec head requests)
    as (Hl & Hls & Hr & Hrs & Hlr & Hrr & Hperm).
  eexists _, _, _. do 6 (split; [eassumption|]).
  unfold c_scan. cbv zeta. split; [reflexivity|].
  destruct (decide (direction = "right")); simpl.
  - split; [by rewrite <- app_assoc|].
    rewrite <- app_assoc. simpl. rewrite drop_0.
    rewrite <- !Permutation_middle. by rewrite Hperm.
  - split; [by rewrite <- app_assoc|].
    rewrite <- app_assoc. simpl. rewrite drop_0.
    rewrite <- !Permutation_middle, !reverse_Permutation.
    rewrite (Permutation_swap 0 (disk_size - 1)). do 2 f_equiv.
    by rewrite (comm (++)).
Qed.

(** The head entry and the length of the order of each policy. *)
Lemma policy_order_shape
    (requests : list Z) (head disk_size : Z) (direction : string) :
  (∃ order total, fcfs requests head = Ok (order, total) ∧
     order !! 0%nat = Some head ∧ length order = (1 + length requests)%nat) ∧
  (∃ order total, sstf requests head = Ok (order, total) ∧
     order !! 0%nat = Some head ∧ length order = (1 + length requests)%nat) ∧
  (∃ order total, scan requests head disk_size direction = Ok (order, total) ∧
     order !! 0%nat = Some head ∧
     length order = (1 + length requests + 1)%nat) ∧
  (∃ order total, c_scan requests head disk_size direction = Ok (order, total) ∧
     order !! 0%nat = Some head ∧
     length order = (1 + length requests + 2)%nat).
Proof.
  pose proof (partition_spec head requests)
    as (_ & _ & _ & _ & _ & _ & Hperm). apply Permutation_length in Hperm.
  rewrite length_app in Hperm.
  repeat split.
  - by eexists _, _.
  - destruct (sstf_spec requests head) as (visited & Hsstf & Hvis & _).
    eexists _, _. split; [done|]. split; [done|].
    simpl. by rewrite Hvis.
  - unfold scan. cbv zeta. eexists _, _. split; [done|].
    destruct (decide (direction = "right")); (split; [done|]);
      simpl; rewrite !length_app, length_reverse; simpl; lia.
  - unfold c_scan. cbv zeta. eexists _, _. split; [done|].
    destruct (decide (direction = "right")); (split; [done|]);
      simpl; rewrite !length_app, ?length_reverse; simpl; lia.
Qed.

(** C6: every policy's order starts with the head; its length is
    [1 + len(requests)] for FCFS and SSTF, one more for SCAN and two more
    for C-SCAN, whatever the requests, bounds and direction are. *)
Theorem order_head_and_length
    (requests : list Z) (head disk_size : Z) (direction : string) :
  (∃ order total, fcfs requests head = Ok (order, total) ∧
     order !! 0%nat = Some head ∧ length order = (1 + length requests)%nat) ∧
  (∃ order total, sstf requests head = Ok (order, total) ∧
     order !! 0%nat = Some head ∧ length order = (1 + length requests)%nat) ∧
  (∃ order total, scan requests head disk_size direction = Ok (order, total) ∧
     order !! 0%nat = Some head ∧
     length order = (1 + length requests + 1)%nat) ∧
  (∃ order total, c_scan requests head disk_size direction = Ok (order, total) ∧
     order !! 0%nat = Some head ∧
     length order = (1 + length requests + 2)%nat).
Proof. apply policy_order_shape. Qed.

(** ** The handlers: cost figures *)

Lemma len_nonzero {A} (l : list A) : l ≠ [] → len l ≠ 0.
Proof. destruct l; [done|]. intros _. unfold len. simpl. lia. Qed.

Lemma true_div_zero (a : Z) : true_div a 0 = Raise ZeroDivisionError.
Proof. done. Qed.

(** With a non-zero divisor a division returns a float or overflows. *)
Lemma true_div_nonzero (a b : Z) :
  b ≠ 0 → ∀ e, true_div a b = Raise e → e = OverflowError.
Proof.
  intros Hb e. unfold true_div. rewrite decide_False by done.
  destruct (SFdiv 53 1024 (exact_int a) (exact_int b)); congruence.
Qed.

Lemma throughput_of_eval (request_list : list Z) (t : Z) :
  (if decide (t ≠ 0) then PyFloat <$> true_div (len request_list) t
   else Ok (PyInt 0)) = throughput_of request_list t.
Proof.
  unfold throughput_of. destruct (decide (t = 0)) as [->|Ht].
  - by rewrite decide_False by lia.
  - by rewrite decide_True by done.
Qed.

Lemma throughput_of_raise (request_list : list Z) (t : Z) :
  ∀ e, throughput_of request_list t = Raise e → e = OverflowError.
Proof.
  intros e. unfold throughput_of. destruct (decide (t = 0)); [done|].
  destruct (true_div (len request_list) t) as [x|e'] eqn:Hdiv; [done|].
  cbn. intros [= Heq]. subst. exact (true_div_nonzero _ _ n _ Hdiv).
Qed.

Ltac policy_cases H :=
  repeat (apply elem_of_cons in H as [->|H]); [..|by apply elem_of_nil in H].

(** What the policy selection of the "Run Simulation" handler returns. *)
Lemma selected_policy_spec algo requests head disk_size sd cd :
  algo ∈ ["FCFS"; "SSTF"; "SCAN"; "C-SCAN"] →
  ∃ order,
    (if decide (algo = "SCAN") then scan requests head disk_size sd
     else if decide (algo = "C-SCAN") then c_scan requests head disk_size cd
     else selected_algo ← Dict.get algorithms algo; selected_algo requests head)
    = Ok (order, seek_total order) ∧
    len requests = len order - 1 - boundary_entries algo.
Proof.
  intros Halgo.
  pose proof (policy_order_shape requests head disk_size sd) as (_ & _ & Hs & _).
  pose proof (policy_order_shape requests head disk_size cd) as (_ & _ & _ & Hc).
  destruct (sstf_spec requests head) as (visited & Hsstf & Hvis & _).
  apply Permutation_length in Hvis.
  destruct Hs as (os & ts & Hs & _ & Hsl), Hc as (oc & tc & Hc & _ & Hcl).
  assert (∀ l : list Z, length l = (1 + length requests)%nat →
            len requests = len l - 1 - 0) as H0 by (unfold len; lia).
  policy_cases Halgo; cbn.
  - eexists. split; [reflexivity|]. by apply H0.
  - eexists. split; [exact Hsstf|]. apply H0. simpl. lia.
  - exists os. split; [|unfold len; change (boundary_entries "SCAN") with 1; lia].
    rewrite Hs. unfold scan in Hs. by injection Hs as <- <-.
  - exists oc. split; [|unfold len; change (boundary_entries "C-SCAN") with 2; lia].
    rewrite Hc. unfold c_scan in Hc. by injection Hc as <- <-.
Qed.

(** The "Run Simulation" handler, once the selected policy has returned
    [(order, total)]: the two divisions of lines 153-154 and the report. *)
Lemma run_simulation_eq algo requests head disk_size sd cd order total :
  (if decide (algo = "SCAN") then scan requests head disk_size sd
   else if decide (algo = "C-SCAN") then c_scan requests head disk_size cd
   else selected_algo ← Dict.get algorithms algo; selected_algo requests head)
  = Ok (order, total) →
  run_simulation algo requests head disk_size sd cd =
    (avg_seek ← true_div total (len requests);
     throughput ← throughput_of requests total;
     Ok (Report algo order total avg_seek throughput)).
Proof.
  intros Hsel. unfold run_simulation. cbv zeta. rewrite Hsel. cbn.
  by rewrite throughput_of_eval.
Qed.

Lemma run_simulation_raise algo requests head disk_size sd cd :
  algo ∈ ["FCFS"; "SSTF"; "SCAN"; "C-SCAN"] → requests ≠ [] →
  ∀ e, run_simulation algo requests head disk_size sd cd = Raise e →
       e = OverflowError.
Proof.
  intros Halgo Hne%len_nonzero e.
  destruct (selected_policy_spec algo requests head disk_size sd cd Halgo)
    as (order & Hsel & _).
  rewrite (run_simulation_eq _ _ _ _ _ _ _ _ Hsel).
  destruct (true_div (seek_total order) (len requests)) as [avg|e1] eqn:Havg.
  - cbn.
    destruct (throughput_of requests (seek_total order)) as [thr|e2] eqn:Hthr;
      cbn; [done|].
    intros [= <-]. by apply throughput_of_raise in Hthr.
  - cbn. intros [= <-]. by apply true_div_nonzero in Havg.
Qed.

(** C4, as the code has it: for each of the four policies the handler's
    total is the sum of absolute consecutive differences of the policy's
    order (0 for a one-entry order), its average is the float division
    [total / len(requests)] and its throughput the float division
    [len(requests) / total], or the int [0] when the total is [0].
    [len(requests)] is [len(order) - 1] for FCFS and SSTF only: SCAN adds one
    boundary entry to the order and C-SCAN two.  On a non-empty request list
    the only failure is the [OverflowError] of a division whose quotient is
    too large for a float. *)
Theorem run_simulation_metrics
    (algo : string) (requests : list Z) (head disk_size : Z) (sd cd : string) :
  algo ∈ ["FCFS"; "SSTF"; "SCAN"; "C-SCAN"] →
  ∃ order total,
    (if decide (algo = "FCFS") then fcfs requests head
     else if decide (algo = "SSTF") then sstf requests head
     else if decide (algo = "SCAN") then scan requests head disk_size sd
     else c_scan requests head disk_size cd) = Ok (order, total) ∧
    total = path_cost order ∧
    path_cost [head] = 0 ∧
    len requests = len order - 1 - boundary_entries algo ∧
    run_simulation algo requests head disk_size sd cd =
      (avg_seek ← true_div total (len requests);
       throughput ←
         (if decide (total = 0) then Ok (PyInt 0)
          else PyFloat <$> true_div (len requests) total);
       Ok (Report algo order total avg_seek throughput)) ∧
    (requests ≠ [] →
     ∀ e, run_simulation algo requests head disk_size sd cd = Raise e →
          e = OverflowError).
Proof.
  intros Halgo.
  destruct (selected_policy_spec algo requests head disk_size sd cd Halgo)
    as (order & Hsel & Hlen).
  exists order, (seek_total order).
  split; [|split; [apply seek_total_path_cost|split; [done|split; [done|split]]]].
  - clear Hlen. policy_cases Halgo; exact Hsel.
  - exact (run_simulation_eq _ _ _ _ _ _ _ _ Hsel).
  - intros Hne. by apply run_simulation_raise.
Qed.

Lemma run_simulation_metrics_witness :
  ∃ order total avg_seek throughput,
    scan [82; 170; 43; 140; 24; 16; 190] 50 200 "right" = Ok (order, total) ∧
    total = path_cost order ∧
    len [82; 170; 43; 140; 24; 16; 190] = len order - 1 - 1 ∧
    true_div total 7 = Ok avg_seek ∧
    true_div 7 total = Ok throughput ∧
    run_simulation "SCAN" [82; 170; 43; 140; 24; 16; 190] 50 200 "right" "right"
      = Ok (Report "SCAN" order total avg_seek (PyFloat throughput)).
Proof.
  destruct (run_simulation_metrics "SCAN" [82; 170; 43; 140; 24; 16; 190]
              50 200 "right" "right")
    as (order & total & Hsel & Htotal & _ & Hlen & Hrun & _).
  - by apply (bool_decide_unpack _).
  - assert (order = [50; 82; 140; 170; 190; 199; 43; 24; 16] ∧ total = 332)
      as [Horder Ht].
    { vm_compute in Hsel. split; congruence. }
    exists order, total, (S754_finite false 6674978019138414 (-47)),
      (S754_finite false 6077146485126452 (-58)).
    split; [exact Hsel|]. split; [exact Htotal|]. split; [exact Hlen|].
    rewrite Hrun, Ht. repeat split; vm_compute; reflexivity.
Defined.

(** C4 as stated fails for SCAN: on requests [[10]] with head [0] the order
    is [[0; 10; 199]], the total 199 and the reported average [199 / 1], not
    [199 / (len(order) - 1) = 199 / 2]; likewise the throughput is [1 / 199]
    and not [2 / 199]. *)
Lemma run_simulation_average_counterexample :
  ∃ rep claimed_avg claimed_throughput,
    run_simulation "SCAN" [10] 0 200 "right" "right" = Ok rep ∧
    rep_order rep = [0; 10; 199] ∧
    rep_total rep = 199 ∧
    true_div (rep_total rep) (len (rep_order rep) - 1) = Ok claimed_avg ∧
    rep_avg_seek rep ≠ claimed_avg ∧
    true_div (len (rep_order rep) - 1) (rep_total rep)
      = Ok claimed_throughput ∧
    rep_throughput rep ≠ PyFloat claimed_throughput.
Proof.
  eexists _, _, _. split; [vm_compute; reflexivity|].
  cbn [rep_order rep_total rep_avg_seek rep_throughput].
  split; [reflexivity|]. split; [reflexivity|].
  split; [vm_compute; reflexivity|]. split; [discriminate|].
  split; [vm_compute; reflexivity|]. discriminate.
Qed.

(** ** The handlers: comparison of all policies *)

Lemma compare_loop_spec request_list head disk_size o1 t1 o2 t2 o3 t3 o4 t4 :
  fcfs request_list head = Ok (o1, t1) →
  sstf request_list head = Ok (o2, t2) →
  scan request_list head disk_size "right" = Ok (o3, t3) →
  c_scan request_list head disk_size "right" = Ok (o4, t4) →
  compare_loop request_list head disk_size ([], []) (Dict.items algorithms) =
  Ok ([("FCFS", t1); ("SSTF", t2); ("SCAN", t3); ("C-SCAN", t4)],
      [("FCFS", o1); ("SSTF", o2); ("SCAN", o3); ("C-SCAN", o4)]).
Proof.
  intros H1 H2 H3 H4. unfold algorithms, Dict.items.
  cbn -[fcfs sstf scan c_scan].
  repeat (case_decide; try done).
  rewrite H1. cbn -[fcfs sstf scan c_scan].
  repeat (case_decide; try done).
  rewrite H2. cbn -[fcfs sstf scan c_scan].
  repeat (case_decide; try done).
  rewrite H3. cbn -[fcfs sstf scan c_scan].
  repeat (case_decide; try done).
  rewrite H4. reflexivity.
Qed.

Lemma dict_get_here {V} (d : Dict.t V) k v : Dict.get ((k, v) :: d) k = Ok v.
Proof. simpl. by rewrite decide_True. Qed.

Lemma dict_get_further {V} (d : Dict.t V) k k' v :
  k' ≠ k → Dict.get ((k', v) :: d) k = Dict.get d k.
Proof. intros Hk. simpl. by rewrite decide_False. Qed.

(** The two computed columns of the table. *)
Lemma table_columns (request_list : list Z) (t1 t2 t3 t4 : Z) :
  let results : Dict.t Z :=
    [("FCFS", t1); ("SSTF", t2); ("SCAN", t3); ("C-SCAN", t4)] in
  result_mapM (λ a, r ← Dict.get results a; true_div r (len request_list))
    (Dict.keys results) =
    result_mapM (λ t, true_div t (len request_list)) [t1; t2; t3; t4] ∧
  result_mapM
    (λ a, r ← Dict.get results a;
          if decide (r ≠ 0) then
            r' ← Dict.get results a;
            PyFloat <$> true_div (len request_list) r'
          else Ok (PyInt 0))
    (Dict.keys results) =
    result_mapM (throughput_of request_list) [t1; t2; t3; t4].
Proof.
  intros results. subst results.
  unfold Dict.keys. cbn [fmap list_fmap fst result_mapM].
  repeat first [rewrite dict_get_here | rewrite dict_get_further by done].
  split; [done|].
  cbn -[true_div len Dict.get throughput_of].
  rewrite <- !throughput_of_eval.
  repeat (case_decide;
          cbn -[true_div len Dict.get throughput_of];
          repeat first [rewrite dict_get_here
                       | rewrite dict_get_further by done];
          cbn -[true_div len Dict.get throughput_of]);
    reflexivity.
Qed.

Lemma compare_all_eq request_list head disk_size o1 t1 o2 t2 o3 t3 o4 t4 :
  fcfs request_list head = Ok (o1, t1) →
  sstf request_list head = Ok (o2, t2) →
  scan request_list head disk_size "right" = Ok (o3, t3) →
  c_scan request_list head disk_size "right" = Ok (o4, t4) →
  compare_all request_list head disk_size =
    (avg ← result_mapM (λ t, true_div t (len request_list)) [t1; t2; t3; t4];
     throughput ← result_mapM (throughput_of request_list) [t1; t2; t3; t4];
     Ok (Comparison
           [("FCFS", o1); ("SSTF", o2); ("SCAN", o3); ("C-SCAN", o4)]
           ["FCFS"; "SSTF"; "SCAN"; "C-SCAN"]
           [t1; t2; t3; t4] avg throughput)).
Proof.
  intros H1 H2 H3 H4. unfold compare_all. cbv zeta.
  rewrite (compare_loop_spec _ _ _ _ _ _ _ _ _ _ _ H1 H2 H3 H4).
  destruct (table_columns request_list t1 t2 t3 t4) as [Havg Hthr].
  cbv zeta in Havg, Hthr.
  cbn -[result_mapM Dict.keys Dict.get true_div len throughput_of].
  rewrite Havg, Hthr. reflexivity.
Qed.

Lemma mapM_raise_only {A B} (f : A → result B) (l : list A) (e0 : exn) :
  (∀ x e, f x = Raise e → e = e0) →
  ∀ e, result_mapM f l = Raise e → e = e0.
Proof.
  intros Hf. induction l as [|x l IH]; intros e; simpl; [done|].
  destruct (f x) as [y|e1] eqn:Hx; cbn.
  - destruct (result_mapM f l) as [ys|e2]; cbn; [done|].
    intros [= <-]. by apply IH.
  - intros [= <-]. by eapply Hf.
Qed.

Lemma compare_all_raise request_list head disk_size :
  request_list ≠ [] →
  ∀ e, compare_all request_list head disk_size = Raise e → e = OverflowError.
Proof.
  intros Hne%len_nonzero e.
  destruct (policy_order_shape request_list head disk_size "right")
    as ((o1 & t1 & H1 & _) & (o2 & t2 & H2 & _) &
        (o3 & t3 & H3 & _) & (o4 & t4 & H4 & _)).
  rewrite (compare_all_eq _ _ _ _ _ _ _ _ _ _ _ H1 H2 H3 H4).
  destruct (result_mapM (λ t, true_div t (len request_list)) [t1; t2; t3; t4])
    as [avg|e1] eqn:Havg.
  - cbn -[result_mapM].
    destruct (result_mapM (throughput_of request_list) [t1; t2; t3; t4])
      as [thr|e2] eqn:Hthr; cbn -[result_mapM]; [done|].
    intros [= <-]. revert Hthr. apply mapM_raise_only.
    intros t. apply throughput_of_raise.
  - cbn -[result_mapM]. intros [= <-]. revert Havg. apply mapM_raise_only.
    intros t. by apply true_div_nonzero.
Qed.

(** C8, as the code has it: for every request list the comparison runs
    FCFS, SSTF, SCAN and C-SCAN on the same requests and head, SCAN and
    C-SCAN with direction "right", and its loop yields the totals and the
    orders keyed by policy name in the order FCFS, SSTF, SCAN, C-SCAN.  The
    table adds, per policy, the float division [total / len(request_list)]
    and the throughput [len(request_list) / total] (the int [0] for a zero
    total); it is produced only when none of these divisions raises, and on
    a non-empty request list the only such failure is [OverflowError]. *)
Theorem compare_all_table (request_list : list Z) (head disk_size : Z) :
  ∃ o1 t1 o2 t2 o3 t3 o4 t4,
    fcfs request_list head = Ok (o1, t1) ∧
    sstf request_list head = Ok (o2, t2) ∧
    scan request_list head disk_size "right" = Ok (o3, t3) ∧
    c_scan request_list head disk_size "right" = Ok (o4, t4) ∧
    compare_loop request_list head disk_size ([], []) (Dict.items algorithms)
      = Ok ([("FCFS", t1); ("SSTF", t2); ("SCAN", t3); ("C-SCAN", t4)],
            [("FCFS", o1); ("SSTF", o2); ("SCAN", o3); ("C-SCAN", o4)]) ∧
    compare_all request_list head disk_size =
      (avg ← result_mapM (λ t, true_div t (len request_list))
               [t1; t2; t3; t4];
       throughput ←
         result_mapM
           (λ t, if decide (t = 0) then Ok (PyInt 0)
                 else PyFloat <$> true_div (len request_list) t)
           [t1; t2; t3; t4];
       Ok (Comparison
             [("FCFS", o1); ("SSTF", o2); ("SCAN", o3); ("C-SCAN", o4)]
             ["FCFS"; "SSTF"; "SCAN"; "C-SCAN"]
             [t1; t2; t3; t4] avg throughput)) ∧
    (request_list ≠ [] →
     ∀ e, compare_all request_list head disk_size = Raise e →
          e = OverflowError).
Proof.
  destruct (policy_order_shape request_list head disk_size "right")
    as ((o1 & t1 & H1 & _) & (o2 & t2 & H2 & _) &
        (o3 & t3 & H3 & _) & (o4 & t4 & H4 & _)).
  exists o1, t1, o2, t2, o3, t3, o4, t4. do 4 (split; [done|]).
  split; [by apply compare_loop_spec|]. split.
  - exact (compare_all_eq _ _ _ _ _ _ _ _ _ _ _ H1 H2 H3 H4).
  - apply compare_all_raise.
Qed.

Lemma compare_all_table_witness :
  ∃ cmp,
    compare_all [82; 170; 43; 140; 24; 16; 190] 50 200 = Ok cmp ∧
    cmp_algorithm cmp = ["FCFS"; "SSTF"; "SCAN"; "C-SCAN"] ∧
    cmp_total cmp = [642; 208; 332; 391].
Proof.
  destruct (compare_all_table [82; 170; 43; 140; 24; 16; 190] 50 200)
    as (o1 & t1 & o2 & t2 & o3 & t3 & o4 & t4 &
        H1 & H2 & H3 & H4 & _ & Hcmp & _).
  assert (t1 = 642 ∧ t2 = 208 ∧ t3 = 332 ∧ t4 = 391) as (-> & -> & -> & ->).
  { vm_compute in H1, H2, H3, H4. repeat split; congruence. }
  rewrite Hcmp. eexists. split; [vm_compute; reflexivity|].
  split; reflexivity.
Defined.

(** C8 as stated fails on a request beyond the float range: for the one
    request [10^400] every policy returns its order and total, but each
    average [total / 1] raises [OverflowError] and no table is produced. *)
Lemma compare_all_overflow_counterexample :
  (∃ order total, fcfs [10 ^ 400] 50 = Ok (order, total)) ∧
  compare_all [10 ^ 400] 50 200 = Raise OverflowError.
Proof. split; [by eexists _, _|]. vm_compute. reflexivity. Qed.

(** ** Object-level model: a weakest-precondition calculus *)

Section wp.
Context {A B : Type}.
Implicit Types (h : heap) (p q : loc) (l : list Z).

Lemma wp_ret (a : A) h (Q : A → heap → Prop) : Q a h → wp (mret a) h Q.
Proof. intros HQ. by exists a, h. Qed.

Lemma wp_bind (m : M A) (k : A → M B) h (Q : B → heap → Prop) :
  wp m h (λ a h', wp (k a) h' Q) → wp (m ≫= k) h Q.
Proof.
  intros (a & h' & Hm & b & h'' & Hk & HQ). exists b, h''.
  split; [|done]. unfold mbind, M_bind. by rewrite Hm.
Qed.

Lemma wp_lift (a : A) h (Q : A → heap → Prop) :
  Q a h → wp (Obj.lift (Ok a)) h Q.
Proof. intros HQ. by exists a, h. Qed.
End wp.

Section wp_list.
Implicit Types (h : heap) (p q : loc) (l a b : list Z).

Lemma wp_new_list l h (Q : loc → heap → Prop) :
  (∀ p, h !! p = None → Q p (<[p := l]> h)) → wp (Obj.new_list l) h Q.
Proof.
  intros HQ. eexists _, _. split; [reflexivity|]. apply HQ.
  apply not_elem_of_dom, is_fresh.
Qed.

Lemma wp_contents p l h (Q : list Z → heap → Prop) :
  h !! p = Some l → Q l h → wp (Obj.contents p) h Q.
Proof. intros Hp HQ. exists l, h. unfold Obj.contents. by rewrite Hp. Qed.

Lemma wp_assign p l old h (Q : unit → heap → Prop) :
  h !! p = Some old → Q () (<[p := l]> h) → wp (Obj.assign p l) h Q.
Proof.
  intros Hp HQ. exists (), (<[p := l]> h). unfold Obj.assign.
  by rewrite Hp.
Qed.

Lemma wp_copy p l h (Q : loc → heap → Prop) :
  h !! p = Some l →
  (∀ o, h !! o = None → Q o (<[o := l]> h)) → wp (Obj.copy p) h Q.
Proof.
  intros Hp HQ. apply wp_bind, (wp_contents p l); [done|].
  by apply wp_new_list.
Qed.

Lemma wp_add p q a b h (Q : loc → heap → Prop) :
  h !! p = Some a → h !! q = Some b →
  (∀ o, h !! o = None → Q o (<[o := a ++ b]> h)) → wp (Obj.add p q) h Q.
Proof.
  intros Hp Hq HQ. apply wp_bind, (wp_contents p a); [done|].
  apply wp_bind, (wp_contents q b); [done|]. by apply wp_new_list.
Qed.

Lemma wp_iadd p q a b h (Q : unit → heap → Prop) :
  h !! p = Some a → h !! q = Some b →
  Q () (<[p := a ++ b]> h) → wp (Obj.iadd p q) h Q.
Proof.
  intros Hp Hq HQ. apply wp_bind, (wp_contents p a); [done|].
  apply wp_bind, (wp_contents q b); [done|]. by eapply wp_assign.
Qed.

Lemma wp_append p x a h (Q : unit → heap → Prop) :
  h !! p = Some a → Q () (<[p := a ++ [x]]> h) → wp (Obj.append p x) h Q.
Proof.
  intros Hp HQ. apply wp_bind, (wp_contents p a); [done|].
  by eapply wp_assign.
Qed.

Lemma wp_remove p x a a' h (Q : unit → heap → Prop) :
  h !! p = Some a → Py.remove x a = Ok a' →
  Q () (<[p := a']> h) → wp (Obj.remove p x) h Q.
Proof.
  intros Hp Hrem HQ. apply wp_bind, (wp_contents p a); [done|].
  apply wp_bind. rewrite Hrem. apply wp_lift. by eapply wp_assign.
Qed.

Lemma wp_reversed p a h (Q : loc → heap → Prop) :
  h !! p = Some a →
  (∀ o, h !! o = None → Q o (<[o := reverse a]> h)) →
  wp (Obj.reversed p) h Q.
Proof.
  intros Hp HQ. apply wp_bind, (wp_contents p a); [done|].
  by apply wp_new_list.
Qed.

Lemma wp_comprehension (keep : Z → Prop) `{!∀ r, Decision (keep r)}
    p a h (Q : loc → heap → Prop) :
  h !! p = Some a →
  (∀ o, h !! o = None → Q o (<[o := filter keep a]> h)) →
  wp (Obj.comprehension keep p) h Q.
Proof.
  intros Hp HQ. apply wp_bind, (wp_contents p a); [done|].
  by apply wp_new_list.
Qed.

Lemma wp_sorted p a h (Q : loc → heap → Prop) :
  h !! p = Some a →
  (∀ o, h !! o = None → Q o (<[o := Py.sorted a]> h)) →
  wp (Obj.sorted p) h Q.
Proof.
  intros Hp HQ. apply wp_bind, (wp_contents p a); [done|].
  by apply wp_new_list.
Qed.

Lemma wp_min key p a x h (Q : Z → heap → Prop) :
  h !! p = Some a → Py.min key a = Ok x → Q x h → wp (Obj.min key p) h Q.
Proof.
  intros Hp Hmin HQ. apply wp_bind, (wp_contents p a); [done|].
  rewrite Hmin. by apply wp_lift.
Qed.

Lemma wp_truthy p a h (Q : bool → heap → Prop) :
  h !! p = Some a → Q (if a is [] then false else true) h →
  wp (Obj.truthy p) h Q.
Proof.
  intros Hp HQ. apply wp_bind, (wp_contents p a); [done|].
  by apply wp_ret.
Qed.

Lemma wp_seek_total p a h (Q : Z → heap → Prop) :
  h !! p = Some a → Q (seek_total a) h → wp (Obj.seek_total p) h Q.
Proof.
  intros Hp HQ. apply wp_bind, (wp_contents p a); [done|].
  by apply wp_ret.
Qed.
End wp_list.

(** ** Object-level model: the functions leave their argument alone *)

(** Split the freshness facts of the allocations made so far. *)
Ltac fresh_facts :=
  repeat match goal with
  | H : <[_ := _]> _ !! _ = None |- _ =>
      apply lookup_insert_None in H as [H ?]
  end.

(** A lookup in a store built by insertions at known, distinct places. *)
Ltac lookup_store :=
  repeat first
    [ rewrite lookup_insert_eq
    | rewrite lookup_insert_ne by (done || (intros ->; congruence)) ];
  try done.

Lemma wp_sstf_while (fuel : nat) :
  ∀ (h : heap) reqs order rs o current (Q : unit → heap → Prop),
    reqs ≠ order → h !! reqs = Some rs → h !! order = Some o →
    (length rs < fuel)%nat →
    (∀ o' h', sstf_loop rs o current = Ok o' →
       h' !! order = Some o' → h' !! reqs = Some [] →
       (∀ p, p ≠ reqs → p ≠ order → h' !! p = h !! p) → Q () h') →
    wp (Obj.sstf_while fuel reqs order current) h Q.
Proof.
  induction fuel as [|fuel IH];
    intros h reqs order rs o current Q Hne Hreqs Horder Hfuel HQ; [lia|].
  cbn [Obj.sstf_while]. apply wp_bind, (wp_truthy reqs rs); [done|].
  destruct rs as [|r rs].
  { apply wp_ret, (HQ o h); [by rewrite sstf_loop_equation_1|done..]. }
  destruct (min_first_min (λ y, Z.abs (y - current)) (r :: rs))
    as (nearest & Hmin & Hfirst); [done|].
  destruct (remove_elem nearest (r :: rs)) as [reqs' Hrem];
    [by eapply first_min_elem|].
  apply wp_bind, (wp_min _ reqs (r :: rs) nearest); [done..|].
  apply wp_bind, (wp_append order nearest o); [done|].
  apply wp_bind, (wp_remove reqs nearest (r :: rs) reqs'); [by lookup_store|done|].
  apply (IH _ reqs order reqs' (o ++ [nearest])); [done|by lookup_store..| |].
  { apply remove_length in Hrem. simpl in *. lia. }
  intros o' h' Hloop Ho' Hr' Hframe. apply (HQ o' h'); [|done..|].
  - by rewrite (sstf_loop_cons _ _ _ _ _ _ Hmin Hrem).
  - intros p Hp1 Hp2. rewrite Hframe by done. by lookup_store.
Qed.

Lemma wp_fcfs (h : heap) requests head (l : list Z) :
  h !! requests = Some l →
  wp (Obj.fcfs requests head) h (returns (fcfs l head) h).
Proof.
  intros Hreq. unfold Obj.fcfs.
  apply wp_bind, wp_new_list. intros t Ht.
  apply wp_bind, (wp_add t requests [head] l); [by lookup_store..|].
  intros order Horder. fresh_facts.
  apply wp_bind, (wp_seek_total order ([head] ++ l)); [by lookup_store|].
  apply wp_ret. exists ([head] ++ l). cbn [fst snd].
  split; [done|]. split; [by lookup_store|]. split; [done|].
  intros p k Hp. by lookup_store.
Qed.

Lemma wp_sstf (fuel : nat) (h : heap) requests head (l : list Z) :
  h !! requests = Some l → (length l < fuel)%nat →
  wp (Obj.sstf fuel requests head) h
    (λ ret h', returns (sstf l head) h ret h' ∧
               ∃ reqs, h !! reqs = None ∧ h' !! reqs = Some []).
Proof.
  intros Hreq Hfuel. unfold Obj.sstf.
  apply wp_bind, (wp_copy requests l); [done|]. intros reqs Hreqs.
  apply wp_bind, wp_new_list. intros order Horder. fresh_facts. cbv zeta.
  apply wp_bind, (wp_sstf_while fuel _ reqs order l [head] head);
    [done|by lookup_store..|done|].
  intros o' h' Hloop Ho' Hr' Hframe.
  apply wp_bind, (wp_seek_total order o'); [done|].
  apply wp_ret. split; [|by exists reqs]. exists o'. cbn [fst snd].
  split; [by unfold sstf; cbv zeta; rewrite Hloop|].
  split; [done|]. split; [done|].
  intros p k Hp. rewrite Hframe by (intros ->; congruence).
  by lookup_store.
Qed.

Lemma wp_scan (h : heap) requests head disk_size direction (l : list Z) :
  h !! requests = Some l →
  wp (Obj.scan requests head disk_size direction) h
    (returns (scan l head disk_size direction) h).
Proof.
  intros Hreq. unfold Obj.scan, scan. cbv zeta.
  apply wp_bind, (wp_comprehension _ requests l); [done|]. intros t1 Ht1.
  apply wp_bind; eapply (wp_sorted t1); [by lookup_store|].
  intros lft Hlft. fresh_facts.
  apply wp_bind, (wp_comprehension _ requests l); [by lookup_store|].
  intros t2 Ht2. fresh_facts.
  apply wp_bind; eapply (wp_sorted t2); [by lookup_store|].
  intros rgt Hrgt. fresh_facts.
  apply wp_bind, wp_new_list. intros order Horder. fresh_facts.
  apply wp_bind. destruct (decide (direction = "right")).
  - apply wp_bind, wp_new_list. intros b Hb. fresh_facts.
    apply wp_bind; eapply (wp_add rgt b); [by lookup_store..|].
    intros t3 Ht3. fresh_facts.
    apply wp_bind; eapply (wp_reversed lft); [by lookup_store|].
    intros r Hr. fresh_facts.
    apply wp_bind; eapply (wp_add t3 r); [by lookup_store..|].
    intros t4 Ht4. fresh_facts.
    eapply (wp_iadd order t4); [by lookup_store..|].
    apply wp_bind; eapply (wp_seek_total order); [by lookup_store|].
    apply wp_ret. eexists. cbn [fst snd].
    split; [done|]. split; [by lookup_store|]. split; [done|].
    intros p k Hp. by lookup_store.
  - apply wp_bind; eapply (wp_reversed lft); [by lookup_store|].
    intros r Hr. fresh_facts.
    apply wp_bind, wp_new_list. intros b Hb. fresh_facts.
    apply wp_bind; eapply (wp_add r b); [by lookup_store..|].
    intros t3 Ht3. fresh_facts.
    apply wp_bind; eapply (wp_add t3 rgt); [by lookup_store..|].
    intros t4 Ht4. fresh_facts.
    eapply (wp_iadd order t4); [by lookup_store..|].
    apply wp_bind; eapply (wp_seek_total order); [by lookup_store|].
    apply wp_ret. eexists. cbn [fst snd].
    split; [done|]. split; [by lookup_store|]. split; [done|].
    intros p k Hp. by lookup_store.
Qed.

Lemma wp_c_scan (h : heap) requests head disk_size direction (l : list Z) :
  h !! requests = Some l →
  wp (Obj.c_scan requests head disk_size direction) h
    (returns (c_scan l head disk_size direction) h).
Proof.
  intros Hreq. unfold Obj.c_scan, c_scan. cbv zeta.
  apply wp_bind, (wp_comprehension _ requests l); [done|]. intros t1 Ht1.
  apply wp_bind; eapply (wp_sorted t1); [by lookup_store|].
  intros lft Hlft. fresh_facts.
  apply wp_bind, (wp_comprehension _ requests l); [by lookup_store|].
  intros t2 Ht2. fresh_facts.
  apply wp_bind; eapply (wp_sorted t2); [by lookup_store|].
  intros rgt Hrgt. fresh_facts.
  apply wp_bind. destruct (decide (direction = "right")).
  - apply wp_bind, wp_new_list. intros hd Hhd. fresh_facts.
    apply wp_bind; eapply (wp_add hd rgt); [by lookup_store..|].
    intros t3 Ht3. fresh_facts.
    apply wp_bind, wp_new_list. intros b Hb. fresh_facts.
    apply wp_bind; eapply (wp_add t3 b); [by lookup_store..|].
    intros t4 Ht4. fresh_facts.
    eapply (wp_add t4 lft); [by lookup_store..|].
    intros order Horder. fresh_facts.
    apply wp_bind; eapply (wp_seek_total order); [by lookup_store|].
    apply wp_ret. eexists. cbn [fst snd].
    split; [done|]. split; [by lookup_store|]. split; [done|].
    intros p k Hp. by lookup_store.
  - apply wp_bind, wp_new_list. intros hd Hhd. fresh_facts.
    apply wp_bind; eapply (wp_reversed lft); [by lookup_store|].
    intros r Hr. fresh_facts.
    apply wp_bind; eapply (wp_add hd r); [by lookup_store..|].
    intros t3 Ht3. fresh_facts.
    apply wp_bind, wp_new_list. intros b Hb. fresh_facts.
    apply wp_bind; eapply (wp_add t3 b); [by lookup_store..|].
    intros t4 Ht4. fresh_facts.
    apply wp_bind; eapply (wp_reversed rgt); [by lookup_store|].
    intros r' Hr'. fresh_facts.
    eapply (wp_add t4 r'); [by lookup_store..|].
    intros order Horder. fresh_facts.
    apply wp_bind; eapply (wp_seek_total order); [by lookup_store|].
    apply wp_ret. eexists. cbn [fst snd].
    split; [done|]. split; [by lookup_store|]. split; [done|].
    intros p k Hp. by lookup_store.
Qed.

Lemma returns_leaves_unchanged m res (h : heap) requests (l : list Z) :
  h !! requests = Some l →
  wp m h (returns res h) → leaves_unchanged m res h requests l.
Proof.
  intros Hreq ([o total] & h' & Hm & order & Hres & Ho & Hfresh & Hframe).
  exists o, total, h', order. cbn [fst snd] in *.
  repeat split; [done..| |by apply Hframe|done].
  intros ->. congruence.
Qed.

(** C9: none of the four functions changes the caller's request list.  In
    any store where [requests] holds [l], each call returns a new order
    object and leaves [requests], and every other object of that store, as
    it was; the list SSTF empties is an object that did not exist before the
    call (its private copy). *)
Theorem policies_leave_requests_unchanged
    (h : heap) (requests : loc) (l : list Z)
    (head disk_size : Z) (direction : string) (fuel : nat) :
  h !! requests = Some l →
  (length l < fuel)%nat →
  leaves_unchanged (Obj.fcfs requests head) (fcfs l head) h requests l ∧
  leaves_unchanged (Obj.sstf fuel requests head) (sstf l head) h requests l ∧
  (∃ ret h' reqs, Obj.sstf fuel requests head h = Done ret h' ∧
     h !! reqs = None ∧ h' !! reqs = Some [] ∧ h' !! requests = Some l) ∧
  leaves_unchanged (Obj.scan requests head disk_size direction)
    (scan l head disk_size direction) h requests l ∧
  leaves_unchanged (Obj.c_scan requests head disk_size direction)
    (c_scan l head disk_size direction) h requests l.
Proof.
  intros Hreq Hfuel.
  pose proof (wp_sstf fuel h requests head l Hreq Hfuel)
    as (ret & h' & Hm & Hret & reqs & Hr & Hr').
  repeat split.
  - by apply returns_leaves_unchanged, wp_fcfs.
  - apply returns_leaves_unchanged; [done|]. by exists ret, h'.
  - exists ret, h', reqs. repeat split; [done..|].
    destruct Hret as (order & _ & _ & _ & Hframe). by apply Hframe.
  - by apply returns_leaves_unchanged, wp_scan.
  - by apply returns_leaves_unchanged, wp_c_scan.
Qed.

Lemma policies_leave_requests_unchanged_witness :
  let h : heap := {[ 1%positive := [82; 170; 43; 140; 24; 16; 190] ]} in
  leaves_unchanged (Obj.sstf 8 1%positive 50)
    (sstf [82; 170; 43; 140; 24; 16; 190] 50) h 1%positive
    [82; 170; 43; 140; 24; 16; 190].
Proof.
  intros h.
  refine (proj1 (proj2 (policies_leave_requests_unchanged h 1%positive
    [82; 170; 43; 140; 24; 16; 190] 50 200 "right" 8 _ _))).
  - reflexivity.
  - simpl. lia.
Defined.

(** The copy matters in the model: the SSTF loop run on the caller's own
    list object empties it. *)
Example sstf_while_without_copy :
  let h : heap := {[ 1%positive := [82; 170; 43]; 2%positive := [50] ]} in
  match Obj.sstf_while 4 1%positive 2%positive 50 h with
  | Done _ h' =>
      h' !! 1%positive = Some [] ∧ h' !! 2%positive = Some [50; 43; 82; 170]
  | _ => False
  end.
Proof. vm_compute. done. Qed.

(** * Further properties *)

(** ** Paths *)

Lemma path_cost_app (x : Z) (l1 l2 : list Z) :
  path_cost (l1 ++ x :: l2) = path_cost (l1 ++ [x]) + path_cost (x :: l2).
Proof.
  induction l1 as [|a [|b l1] IH]; [simpl; lia..|].
  change (Z.abs (b - a) + path_cost ((b :: l1) ++ x :: l2) =
          Z.abs (b - a) + path_cost ((b :: l1) ++ [x]) + path_cost (x :: l2)).
  rewrite IH. lia.
Qed.

Lemma path_cost_reverse (l : list Z) : path_cost (reverse l) = path_cost l.
Proof.
  induction l as [|a [|b l] IH]; [done..|].
  rewrite reverse_cons, (reverse_cons l b), <- app_assoc. simpl app.
  rewrite path_cost_app. rewrite reverse_cons in IH. rewrite IH.
  cbn [path_cost]. lia.
Qed.

Lemma path_cost_first (x y : Z) (l : list Z) :
  y ∈ x :: l → Z.abs (y - x) <= path_cost (x :: l).
Proof.
  revert x. induction l as [|a l IH]; intros x Hy.
  - apply list_elem_of_singleton in Hy as ->. simpl. lia.
  - apply elem_of_cons in Hy as [->|Hy].
    + pose proof (path_cost_nonneg (x :: a :: l)). lia.
    + specialize (IH a Hy). cbn [path_cost] in *. lia.
Qed.

Lemma path_cost_between (x y : Z) (l : list Z) :
  x ∈ l → y ∈ l → Z.abs (x - y) <= path_cost l.
Proof.
  assert (∀ a b k1 k2, b ∈ a :: k2 →
            Z.abs (a - b) <= path_cost (k1 ++ a :: k2)) as Hafter.
  { intros a b k1 k2 Hb. rewrite path_cost_app.
    pose proof (path_cost_nonneg (k1 ++ [a])).
    pose proof (path_cost_first a b k2 Hb). lia. }
  intros Hx Hy.
  apply list_elem_of_split in Hx as (l1 & l2 & ->).
  apply elem_of_app in Hy as [Hy|Hy]; [|by apply Hafter].
  apply list_elem_of_split in Hy as (l3 & l4 & ->).
  rewrite <- app_assoc. simpl app.
  pose proof (Hafter y x l3 (l4 ++ x :: l2) ltac:(set_solver)). lia.
Qed.

Lemma path_cost_zero (x : Z) (l : list Z) :
  path_cost (x :: l) = 0 ↔ Forall (λ y, y = x) l.
Proof.
  split.
  - intros Hzero. apply Forall_forall. intros y Hy.
    pose proof (path_cost_first x y l ltac:(set_solver)). lia.
  - revert x. induction l as [|a l IH]; intros x Hall; [done|].
    apply Forall_cons in Hall as [-> Hall].
    change (Z.abs (x - x) + path_cost (x :: l) = 0).
    rewrite (IH x Hall). lia.
Qed.

(** ** What every policy's order holds *)

Lemma fcfs_visits requests head : visits (fcfs requests head) head [] requests.
Proof. by exists requests. Qed.

Lemma sstf_visits requests head : visits (sstf requests head) head [] requests.
Proof.
  destruct (sstf_spec requests head) as (visited & Hsstf & Hperm & _).
  by exists visited.
Qed.

Lemma scan_visits requests head disk_size direction :
  visits (scan requests head disk_size direction) head
    [if decide (direction = "right") then disk_size - 1 else 0] requests.
Proof.
  destruct (partition_spec head requests) as (_ & _ & _ & _ & _ & _ & Hperm).
  unfold visits, scan. cbv zeta.
  destruct (decide (direction = "right"));
    (eexists; split; [reflexivity|]); simpl.
  - rewrite <- app_assoc. simpl. rewrite <- Permutation_middle.
    by rewrite reverse_Permutation, Hperm.
  - rewrite <- app_assoc. simpl. rewrite <- Permutation_middle.
    rewrite reverse_Permutation. f_equiv. by rewrite (comm (++)).
Qed.

Lemma c_scan_visits requests head disk_size direction :
  visits (c_scan requests head disk_size direction) head
    [disk_size - 1; 0] requests.
Proof.
  destruct (partition_spec head requests) as (_ & _ & _ & _ & _ & _ & Hperm).
  unfold visits, c_scan. cbv zeta.
  set (left := Py.sorted (filter (λ r, r < head) requests)) in *.
  set (right := Py.sorted (filter (λ r, r >= head) requests)) in *.
  destruct (decide (direction = "right")).
  - exists ((right ++ [disk_size - 1; 0]) ++ left). split; [done|].
    rewrite <- app_assoc. simpl.
    rewrite <- !Permutation_middle. by rewrite Hperm.
  - exists ((reverse left ++ [0; disk_size - 1]) ++ reverse right).
    split; [done|]. rewrite <- app_assoc. simpl.
    rewrite <- !Permutation_middle, !reverse_Permutation.
    rewrite (Permutation_swap 0 (disk_size - 1)). do 2 f_equiv.
    by rewrite (comm (++)).
Qed.

Lemma visits_total_zero res head extra requests :
  visits res head extra requests →
  ∃ order total, res = Ok (order, total) ∧ 0 <= total ∧
    (total = 0 ↔ Forall (λ r, r = head) (extra ++ requests)).
Proof.
  intros (tail & -> & Hperm). eexists _, _. split; [done|].
  split; [apply seek_total_nonneg|].
  by rewrite seek_total_path_cost, path_cost_zero, Hperm.
Qed.

Lemma visits_total_between res head extra requests x y :
  visits res head extra requests →
  x ∈ head :: requests → y ∈ head :: requests →
  ∃ order total, res = Ok (order, total) ∧ Z.abs (x - y) <= total.
Proof.
  intros (tail & -> & Hperm) Hx Hy. eexists _, _. split; [done|].
  rewrite seek_total_path_cost.
  assert (∀ z, z ∈ head :: requests → z ∈ head :: tail) as Hin.
  { intros z [->|Hz]%elem_of_cons; apply elem_of_cons; [by left|right].
    rewrite Hperm. apply elem_of_app. by right. }
  apply path_cost_between; by apply Hin.
Qed.

(** X1: no total is negative, and a total is [0] exactly when the head never
    moves: for FCFS and SSTF when every request is at the head, for SCAN and
    C-SCAN when in addition the boundary entries are at the head. *)
Theorem total_zero_iff_no_movement
    (requests : list Z) (head disk_size : Z) (direction : string) :
  (∃ order total, fcfs requests head = Ok (order, total) ∧ 0 <= total ∧
     (total = 0 ↔ Forall (λ r, r = head) requests)) ∧
  (∃ order total, sstf requests head = Ok (order, total) ∧ 0 <= total ∧
     (total = 0 ↔ Forall (λ r, r = head) requests)) ∧
  (∃ order total,
     scan requests head disk_size direction = Ok (order, total) ∧ 0 <= total ∧
     (total = 0 ↔
      Forall (λ r, r = head)
        ((if decide (direction = "right") then disk_size - 1 else 0)
           :: requests))) ∧
  (∃ order total,
     c_scan requests head disk_size direction = Ok (order, total) ∧
     0 <= total ∧
     (total = 0 ↔ Forall (λ r, r = head) (disk_size - 1 :: 0 :: requests))).
Proof.
  repeat split.
  - apply (visits_total_zero _ _ [] _ (fcfs_visits requests head)).
  - apply (visits_total_zero _ _ [] _ (sstf_visits requests head)).
  - apply (visits_total_zero _ _ _ _
             (scan_visits requests head disk_size direction)).
  - apply (visits_total_zero _ _ _ _
             (c_scan_visits requests head disk_size direction)).
Qed.

(** X2: under every policy the total is at least the distance between any
    two of the positions to serve (the head and the requests). *)
Theorem total_at_least_any_distance
    (requests : list Z) (head disk_size : Z) (direction : string) (x y : Z) :
  x ∈ head :: requests → y ∈ head :: requests →
  (∃ order total, fcfs requests head = Ok (order, total) ∧
     Z.abs (x - y) <= total) ∧
  (∃ order total, sstf requests head = Ok (order, total) ∧
     Z.abs (x - y) <= total) ∧
  (∃ order total,
     scan requests head disk_size direction = Ok (order, total) ∧
     Z.abs (x - y) <= total) ∧
  (∃ order total,
     c_scan requests head disk_size direction = Ok (order, total) ∧
     Z.abs (x - y) <= total).
Proof.
  intros Hx Hy. repeat split.
  - by apply (visits_total_between _ _ [] requests x y (fcfs_visits _ _)).
  - by apply (visits_total_between _ _ [] requests x y (sstf_visits _ _)).
  - by apply (visits_total_between _ _ _ requests x y (scan_visits _ _ _ _)).
  - by apply (visits_total_between _ _ _ requests x y (c_scan_visits _ _ _ _)).
Qed.

Lemma total_at_least_any_distance_witness :
  ∃ order total,
    sstf [82; 170; 43; 140; 24; 16; 190] 50 = Ok (order, total) ∧
    Z.abs (16 - 190) <= total.
Proof.
  refine (proj1 (proj2 (total_at_least_any_distance
    [82; 170; 43; 140; 24; 16; 190] 50 200 "right" 16 190 _ _)));
    by apply (bool_decide_unpack _).
Defined.

(** ** Sweeps: the cost of a monotone stretch *)

Lemma lowest_Permutation (b : Z) (l l' : list Z) :
  l ≡ₚ l' → lowest b l = lowest b l'.
Proof.
  unfold lowest. induction 1 as [|x l l' _ IH|x y l|l l' l'' _ IH1 _ IH2];
    simpl; [done|by rewrite IH|lia|congruence].
Qed.

Lemma highest_Permutation (b : Z) (l l' : list Z) :
  l ≡ₚ l' → highest b l = highest b l'.
Proof.
  unfold highest. induction 1 as [|x l l' _ IH|x y l|l l' l'' _ IH1 _ IH2];
    simpl; [done|by rewrite IH|lia|congruence].
Qed.

Lemma lowest_between (lo b : Z) (l : list Z) :
  lo <= b → Forall (λ r, lo <= r) l → lo <= lowest b l <= b.
Proof.
  intros Hb. unfold lowest. induction 1 as [|x l Hx _ IH]; simpl; lia.
Qed.

Lemma highest_between (b hi : Z) (l : list Z) :
  b <= hi → Forall (λ r, r <= hi) l → b <= highest b l <= hi.
Proof.
  intros Hb. unfold highest. induction 1 as [|x l Hx _ IH]; simpl; lia.
Qed.

Lemma highest_raise (b c : Z) (l : list Z) :
  c <= b → highest b l = Z.max b (highest c l).
Proof.
  intros Hc. unfold highest. induction l as [|a l IH]; simpl; lia.
Qed.

(** Going up a sorted stretch costs the difference of its ends. *)
Lemma path_cost_ascending (x : Z) (l : list Z) :
  StronglySorted Z.le (x :: l) → path_cost (x :: l) = highest x l - x.
Proof.
  revert x. induction l as [|a l IH]; intros x Hs; [simpl; lia|].
  apply StronglySorted_cons in Hs as [Hx Hs].
  apply Forall_cons in Hx as [Hxa Hx].
  change (Z.abs (a - x) + path_cost (a :: l) = highest x (a :: l) - x).
  rewrite (IH a Hs), (highest_raise a x l Hxa).
  change (highest x (a :: l)) with (Z.max a (highest x l)). lia.
Qed.

Lemma path_cost_ascending_to (l : list Z) (y : Z) :
  StronglySorted Z.le (l ++ [y]) → path_cost (l ++ [y]) = y - lowest y l.
Proof.
  induction l as [|a l IH]; intros Hs; [simpl; lia|].
  simpl app in Hs. apply StronglySorted_cons in Hs as [Ha Hs].
  assert (lowest y (a :: l) = a) as ->.
  { rewrite Forall_app, Forall_singleton in Ha. destruct Ha as [Hl Hy].
    pose proof (lowest_between a y l Hy Hl).
    change (lowest y (a :: l)) with (Z.min a (lowest y l)). lia. }
  destruct l as [|b l];
    [simpl in Ha; rewrite Forall_singleton in Ha; simpl; lia|].
  change (Z.abs (b - a) + path_cost ((b :: l) ++ [y]) = y - a).
  rewrite (IH Hs).
  assert (lowest y (b :: l) = b) as ->.
  { simpl app in Hs. apply StronglySorted_cons in Hs as [Hb _].
    rewrite Forall_app, Forall_singleton in Hb. destruct Hb as [Hl Hy].
    pose proof (lowest_between b y l Hy Hl).
    change (lowest y (b :: l)) with (Z.min b (lowest y l)). lia. }
  simpl in Ha. apply Forall_cons in Ha as [Hab _]. lia.
Qed.

(** Going down the reverse of a sorted stretch, starting above it. *)
Lemma path_cost_descending (x : Z) (l : list Z) :
  StronglySorted Z.le (l ++ [x]) →
  path_cost (x :: reverse l) = x - lowest x l.
Proof.
  intros Hs. rewrite <- (path_cost_ascending_to l x Hs).
  rewrite <- (path_cost_reverse (l ++ [x])).
  by rewrite reverse_app, reverse_singleton.
Qed.

Lemma StronglySorted_snoc_le (l : list Z) (y : Z) :
  StronglySorted Z.le l → Forall (λ r, r <= y) l →
  StronglySorted Z.le (l ++ [y]).
Proof.
  intros Hs Hy. apply StronglySorted_app_2; [|done|repeat constructor].
  intros a b Ha ->%list_elem_of_singleton.
  by apply (proj1 (Forall_forall _ _) Hy).
Qed.

Lemma StronglySorted_cons_le (x : Z) (l : list Z) :
  StronglySorted Z.le l → Forall (λ r, x <= r) l →
  StronglySorted Z.le (x :: l).
Proof. intros Hs Hx. by apply StronglySorted_cons. Qed.

Lemma sorted_StronglySorted (l : list Z) : StronglySorted Z.le (Py.sorted l).
Proof. apply (StronglySorted_merge_sort Z.le). Qed.

Lemma sorted_Forall (P : Z → Prop) (l : list Z) :
  Forall P l → Forall P (Py.sorted l).
Proof. by rewrite sorted_Permutation. Qed.

Lemma filter_below_bounds (lo head : Z) (l : list Z) :
  Forall (λ r, lo <= r) l →
  Forall (λ r, lo <= r <= head) (filter (λ r, r < head) l).
Proof.
  intros Hl. apply Forall_forall. intros r [Hr Hin]%list_elem_of_filter.
  pose proof (proj1 (Forall_forall _ _) Hl r Hin). simpl in *. lia.
Qed.

Lemma filter_above_bounds (hi head : Z) (l : list Z) :
  Forall (λ r, r <= hi) l →
  Forall (λ r, head <= r <= hi) (filter (λ r, r >= head) l).
Proof.
  intros Hl. apply Forall_forall. intros r [Hr Hin]%list_elem_of_filter.
  pose proof (proj1 (Forall_forall _ _) Hl r Hin). simpl in *. lia.
Qed.

(** ** SCAN and C-SCAN on in-range input: closed forms *)

Section sweeps.
Variables (requests : list Z) (head disk_size : Z).
Hypothesis Hrange : in_range requests head disk_size.

Let lft := Py.sorted (filter (λ r, r < head) requests).
Let rgt := Py.sorted (filter (λ r, r >= head) requests).

Lemma in_range_left : Forall (λ r, 0 <= r <= head) lft.
Proof.
  destruct Hrange as [_ Hreq]. apply sorted_Forall, filter_below_bounds.
  eapply Forall_impl; [exact Hreq|]. simpl. lia.
Qed.

Lemma in_range_right : Forall (λ r, head <= r <= disk_size - 1) rgt.
Proof.
  destruct Hrange as [_ Hreq]. apply sorted_Forall, filter_above_bounds.
  eapply Forall_impl; [exact Hreq|]. simpl. lia.
Qed.

Lemma up_to_top : path_cost ((head :: rgt) ++ [disk_size - 1]) = disk_size - 1 - head.
Proof.
  pose proof in_range_right as Hr. destruct Hrange as [Hhead _].
  rewrite path_cost_ascending_to.
  - assert (head <= lowest (disk_size - 1) rgt <= disk_size - 1).
    { apply lowest_between; [lia|].
      eapply Forall_impl; [exact Hr|]. simpl. lia. }
    change (lowest (disk_size - 1) (head :: rgt))
      with (Z.min head (lowest (disk_size - 1) rgt)). lia.
  - simpl. apply StronglySorted_cons_le.
    + apply StronglySorted_snoc_le; [apply sorted_StronglySorted|].
      eapply Forall_impl; [exact Hr|]. simpl. lia.
    + apply Forall_app. split; [|apply Forall_singleton; lia].
      eapply Forall_impl; [exact Hr|]. simpl. lia.
Qed.

Lemma down_to_zero : path_cost ((head :: reverse lft) ++ [0]) = head.
Proof.
  pose proof in_range_left as Hl. destruct Hrange as [Hhead _].
  replace ((head :: reverse lft) ++ [0]) with (reverse ((0 :: lft) ++ [head])).
  2:{ by rewrite reverse_app, reverse_singleton, reverse_cons. }
  rewrite path_cost_reverse, path_cost_ascending_to.
  - assert (0 <= lowest head lft <= head).
    { apply lowest_between; [lia|].
      eapply Forall_impl; [exact Hl|]. simpl. lia. }
    change (lowest head (0 :: lft)) with (Z.min 0 (lowest head lft)). lia.
  - simpl. apply StronglySorted_cons_le.
    + apply StronglySorted_snoc_le; [apply sorted_StronglySorted|].
      eapply Forall_impl; [exact Hl|]. simpl. lia.
    + apply Forall_app. split; [|apply Forall_singleton; lia].
      eapply Forall_impl; [exact Hl|]. simpl. lia.
Qed.

Lemma down_from_top (l : list Z) :
  Forall (λ r, r <= disk_size - 1) l →
  path_cost (disk_size - 1 :: reverse (Py.sorted l)) =
  disk_size - 1 - lowest (disk_size - 1) l.
Proof.
  intros Hl. rewrite path_cost_descending.
  - by rewrite (lowest_Permutation _ _ _ (sorted_Permutation l)).
  - apply StronglySorted_snoc_le; [apply sorted_StronglySorted|].
    by apply sorted_Forall.
Qed.

Lemma up_from_zero (l : list Z) :
  Forall (λ r, 0 <= r) l →
  path_cost (0 :: Py.sorted l) = highest 0 l.
Proof.
  intros Hl. rewrite path_cost_ascending.
  - rewrite (highest_Permutation _ _ _ (sorted_Permutation l)). lia.
  - apply StronglySorted_cons_le; [apply sorted_StronglySorted|].
    by apply sorted_Forall.
Qed.

Lemma below_head_in_range :
  Forall (λ r, 0 <= r <= disk_size - 1) (filter (λ r, r < head) requests).
Proof.
  destruct Hrange as [_ Hreq]. apply Forall_forall.
  intros r [_ Hin]%list_elem_of_filter.
  exact (proj1 (Forall_forall _ _) Hreq r Hin).
Qed.

Lemma above_head_in_range :
  Forall (λ r, 0 <= r <= disk_size - 1) (filter (λ r, r >= head) requests).
Proof.
  destruct Hrange as [_ Hreq]. apply Forall_forall.
  intros r [_ Hin]%list_elem_of_filter.
  exact (proj1 (Forall_forall _ _) Hreq r Hin).
Qed.

Lemma scan_total_eq (direction : string) :
  ∃ order, scan requests head disk_size direction =
           Ok (order, scan_sweep_cost requests head disk_size direction).
Proof.
  unfold scan, scan_sweep_cost. cbv zeta. fold lft rgt.
  destruct (decide (direction = "right")); eexists; do 2 f_equal;
    rewrite seek_total_path_cost.
  - replace ([head] ++ (rgt ++ [disk_size - 1]) ++ reverse lft)
      with ((head :: rgt) ++ disk_size - 1 :: reverse lft)
      by (simpl; by rewrite <- app_assoc).
    rewrite path_cost_app, up_to_top. f_equal. apply down_from_top.
    eapply Forall_impl; [exact below_head_in_range|]. simpl. lia.
  - replace ([head] ++ (reverse lft ++ [0]) ++ rgt)
      with ((head :: reverse lft) ++ 0 :: rgt)
      by (simpl; by rewrite <- app_assoc).
    rewrite path_cost_app, down_to_zero. f_equal. apply up_from_zero.
    eapply Forall_impl; [exact above_head_in_range|]. simpl. lia.
Qed.

Lemma c_scan_total_eq (direction : string) :
  ∃ order, c_scan requests head disk_size direction =
           Ok (order, c_scan_sweep_cost requests head disk_size direction).
Proof.
  pose proof Hrange as [Hhead _].
  unfold c_scan, c_scan_sweep_cost. cbv zeta. fold lft rgt.
  destruct (decide (direction = "right")); eexists; do 2 f_equal;
    rewrite seek_total_path_cost.
  - replace ((([head] ++ rgt) ++ [disk_size - 1; 0]) ++ lft)
      with ((head :: rgt) ++ disk_size - 1 :: 0 :: lft)
      by (simpl; by rewrite <- app_assoc).
    rewrite path_cost_app, up_to_top.
    change (path_cost (disk_size - 1 :: 0 :: lft))
      with (Z.abs (0 - (disk_size - 1)) + path_cost (0 :: lft)).
    unfold lft. rewrite up_from_zero; [lia|].
    eapply Forall_impl; [exact below_head_in_range|]. simpl. lia.
  - replace ((([head] ++ reverse lft) ++ [0; disk_size - 1]) ++ reverse rgt)
      with ((head :: reverse lft) ++ 0 :: disk_size - 1 :: reverse rgt)
      by (simpl; by rewrite <- app_assoc).
    rewrite path_cost_app, down_to_zero.
    change (path_cost (0 :: disk_size - 1 :: reverse rgt))
      with (Z.abs (disk_size - 1 - 0) +
            path_cost (disk_size - 1 :: reverse rgt)).
    unfold rgt. rewrite down_from_top; [lia|].
    eapply Forall_impl; [exact above_head_in_range|]. simpl. lia.
Qed.

Lemma sweep_cost_order (direction : string) :
  scan_sweep_cost requests head disk_size direction
    <= c_scan_sweep_cost requests head disk_size direction
    <= 2 * (disk_size - 1).
Proof.
  pose proof Hrange as [Hhead _].
  assert (0 <= lowest (disk_size - 1) (filter (λ r, r < head) requests)
            <= disk_size - 1) as Hlow_l.
  { apply lowest_between; [lia|].
    eapply Forall_impl; [exact below_head_in_range|]. simpl. lia. }
  assert (0 <= highest 0 (filter (λ r, r < head) requests) <= head)
    as Hhigh_l.
  { apply highest_between; [lia|]. apply Forall_forall.
    intros r [Hr _]%list_elem_of_filter. simpl in Hr. lia. }
  assert (0 <= highest 0 (filter (λ r, r >= head) requests)
            <= disk_size - 1) as Hhigh_r.
  { apply highest_between; [lia|].
    eapply Forall_impl; [exact above_head_in_range|]. simpl. lia. }
  assert (head <= lowest (disk_size - 1) (filter (λ r, r >= head) requests)
            <= disk_size - 1) as Hlow_r.
  { apply lowest_between; [lia|]. apply Forall_forall.
    intros r [Hr _]%list_elem_of_filter. simpl in Hr. lia. }
  unfold scan_sweep_cost, c_scan_sweep_cost.
  destruct (decide (direction = "right")); lia.
Qed.

End sweeps.

(** X3: on in-range input SCAN toward "right" costs the way up to the top
    boundary plus the way down to the lowest request below the head (nothing
    when there is none); in the other direction the way down to [0] plus the
    way up to the highest request at or above the head. *)
Theorem scan_total_in_range
    (requests : list Z) (head disk_size : Z) (direction : string) :
  in_range requests head disk_size →
  ∃ order,
    scan requests head disk_size direction =
    Ok (order,
        if decide (direction = "right") then
          (disk_size - 1 - head) +
          (disk_size - 1 -
             lowest (disk_size - 1) (filter (λ r, r < head) requests))
        else head + highest 0 (filter (λ r, r >= head) requests)).
Proof. intros Hrange. exact (scan_total_eq _ _ _ Hrange direction). Qed.

Lemma sample_in_range : in_range [82; 170; 43; 140; 24; 16; 190] 50 200.
Proof. split; [lia|]. repeat constructor; lia. Defined.

Lemma scan_total_in_range_witness :
  ∃ order,
    scan [82; 170; 43; 140; 24; 16; 190] 50 200 "right" =
    Ok (order, (200 - 1 - 50) + (200 - 1 - 16)).
Proof.
  exact (scan_total_in_range [82; 170; 43; 140; 24; 16; 190] 50 200 "right"
           sample_in_range).
Defined.

(** X4: on in-range input C-SCAN toward "right" costs the way up to the top
    boundary, the whole disk back to [0], and the way up to the highest
    request below the head; in the other direction the way down to [0], the
    whole disk up to the top boundary, and the way down to the lowest
    request at or above the head. *)
Theorem c_scan_total_in_range
    (requests : list Z) (head disk_size : Z) (direction : string) :
  in_range requests head disk_size →
  ∃ order,
    c_scan requests head disk_size direction =
    Ok (order,
        if decide (direction = "right") then
          (disk_size - 1 - head) + (disk_size - 1) +
          highest 0 (filter (λ r, r < head) requests)
        else
          head + (disk_size - 1) +
          (disk_size - 1 -
             lowest (disk_size - 1) (filter (λ r, r >= head) requests))).
Proof. intros Hrange. exact (c_scan_total_eq _ _ _ Hrange direction). Qed.

Lemma c_scan_total_in_range_witness :
  ∃ order,
    c_scan [82; 170; 43; 140; 24; 16; 190] 50 200 "left" =
    Ok (order, 50 + (200 - 1) + (200 - 1 - 82)).
Proof.
  exact (c_scan_total_in_range [82; 170; 43; 140; 24; 16; 190] 50 200 "left"
           sample_in_range).
Defined.

(** X5: on in-range input, and in either direction, the C-SCAN total is at
    least the SCAN total and at most twice the top boundary, however many
    requests there are. *)
Theorem c_scan_total_at_least_scan
    (requests : list Z) (head disk_size : Z) (direction : string) :
  in_range requests head disk_size →
  ∃ order_s total_s order_c total_c,
    scan requests head disk_size direction = Ok (order_s, total_s) ∧
    c_scan requests head disk_size direction = Ok (order_c, total_c) ∧
    total_s <= total_c ∧ total_c <= 2 * (disk_size - 1).
Proof.
  intros Hrange.
  destruct (scan_total_eq _ _ _ Hrange direction) as [order_s Hs].
  destruct (c_scan_total_eq _ _ _ Hrange direction) as [order_c Hc].
  pose proof (sweep_cost_order _ _ _ Hrange direction).
  eexists _, _, _, _. split; [exact Hs|]. split; [exact Hc|]. lia.
Qed.

Lemma c_scan_total_at_least_scan_witness :
  ∃ order_s total_s order_c total_c,
    scan [82; 170; 43; 140; 24; 16; 190] 50 200 "right" = Ok (order_s, total_s) ∧
    c_scan [82; 170; 43; 140; 24; 16; 190] 50 200 "right" = Ok (order_c, total_c) ∧
    total_s <= total_c ∧ total_c <= 2 * (200 - 1).
Proof.
  exact (c_scan_total_at_least_scan [82; 170; 43; 140; 24; 16; 190] 50 200
           "right" sample_in_range).
Defined.

(** The range condition is needed: with the head above the disk (the head
    widget goes up to 500, the disk size down to 100) SCAN can cost more
    than C-SCAN. *)
Example scan_above_c_scan_out_of_range :
  scan [0; 450] 500 200 "right" = Ok ([500; 199; 450; 0], 1002) ∧
  c_scan [0; 450] 500 200 "right" = Ok ([500; 199; 0; 0; 450], 950).
Proof. split; vm_compute; reflexivity. Qed.

(** ** SSTF with all requests on one side of the head *)

Lemma nearest_above (current nearest : Z) (reqs : list Z) :
  Forall (λ r, current <= r) reqs →
  first_min (λ y, Z.abs (y - current)) reqs nearest →
  current <= nearest ∧ Forall (λ r, nearest <= r) reqs.
Proof.
  intros Hall Hfirst.
  pose proof (first_min_elem _ _ _ Hfirst) as Hin.
  destruct Hfirst as (_ & _ & Hmin & _).
  rewrite Forall_forall in Hall. pose proof (Hall _ Hin).
  split; [done|]. apply Forall_forall. intros y Hy.
  specialize (Hmin y Hy). specialize (Hall y Hy). simpl in *. lia.
Qed.

Lemma nearest_below (current nearest : Z) (reqs : list Z) :
  Forall (λ r, r <= current) reqs →
  first_min (λ y, Z.abs (y - current)) reqs nearest →
  nearest <= current ∧ Forall (λ r, r <= nearest) reqs.
Proof.
  intros Hall Hfirst.
  pose proof (first_min_elem _ _ _ Hfirst) as Hin.
  destruct Hfirst as (_ & _ & Hmin & _).
  rewrite Forall_forall in Hall. pose proof (Hall _ Hin).
  split; [done|]. apply Forall_forall. intros y Hy.
  specialize (Hmin y Hy). specialize (Hall y Hy). simpl in *. lia.
Qed.

Lemma sstf_loop_ascending (n : nat) :
  ∀ reqs order current, length reqs = n →
  Forall (λ r, current <= r) reqs →
  sstf_loop reqs order current = Ok (order ++ Py.sorted reqs).
Proof.
  induction n as [|n IH]; intros reqs order current Hlen Hall.
  - apply nil_length_inv in Hlen as ->.
    by rewrite sstf_loop_equation_1, app_nil_r.
  - destruct reqs as [|r rs]; [done|].
    destruct (min_first_min (λ y, Z.abs (y - current)) (r :: rs))
      as (nearest & Hmin & Hfirst); [done|].
    destruct (remove_elem nearest (r :: rs)) as [reqs' Hrem];
      [by eapply first_min_elem|].
    pose proof (remove_Permutation _ _ _ Hrem) as Hperm.
    destruct (nearest_above _ _ _ Hall Hfirst) as [_ Hleast].
    rewrite Hperm in Hleast. apply Forall_cons in Hleast as [_ Hleast].
    rewrite (sstf_loop_cons _ _ _ _ _ _ Hmin Hrem), IH, <- app_assoc;
      [|apply remove_length in Hrem; simpl in *; lia|done].
    do 2 f_equal. simpl.
    apply (StronglySorted_unique Z.le).
    + apply StronglySorted_cons_le; [apply sorted_StronglySorted|].
      by apply sorted_Forall.
    + apply sorted_StronglySorted.
    + by rewrite !sorted_Permutation, Hperm.
Qed.

Lemma sstf_loop_descending (n : nat) :
  ∀ reqs order current, length reqs = n →
  Forall (λ r, r <= current) reqs →
  sstf_loop reqs order current = Ok (order ++ reverse (Py.sorted reqs)).
Proof.
  induction n as [|n IH]; intros reqs order current Hlen Hall.
  - apply nil_length_inv in Hlen as ->.
    by rewrite sstf_loop_equation_1, app_nil_r.
  - destruct reqs as [|r rs]; [done|].
    destruct (min_first_min (λ y, Z.abs (y - current)) (r :: rs))
      as (nearest & Hmin & Hfirst); [done|].
    destruct (remove_elem nearest (r :: rs)) as [reqs' Hrem];
      [by eapply first_min_elem|].
    pose proof (remove_Permutation _ _ _ Hrem) as Hperm.
    destruct (nearest_below _ _ _ Hall Hfirst) as [_ Hmost].
    rewrite Hperm in Hmost. apply Forall_cons in Hmost as [_ Hmost].
    rewrite (sstf_loop_cons _ _ _ _ _ _ Hmin Hrem), IH, <- app_assoc;
      [|apply remove_length in Hrem; simpl in *; lia|done].
    do 2 f_equal. simpl. rewrite <- reverse_snoc. f_equal.
    apply (StronglySorted_unique Z.le).
    + apply StronglySorted_snoc_le; [apply sorted_StronglySorted|].
      by apply sorted_Forall.
    + apply sorted_StronglySorted.
    + rewrite !sorted_Permutation, Hperm.
      by rewrite <- Permutation_cons_append.
Qed.

(** X6: when no request lies below the head, SSTF serves the requests in
    ascending order, and its total is the distance from the head to the
    highest request. *)
Theorem sstf_all_above (requests : list Z) (head : Z) :
  Forall (λ r, head <= r) requests →
  sstf requests head =
  Ok (head :: Py.sorted requests, highest head requests - head).
Proof.
  intros Hall. unfold sstf. cbv zeta.
  rewrite (sstf_loop_ascending _ _ _ _ eq_refl Hall). simpl.
  do 2 f_equal. rewrite seek_total_path_cost, path_cost_ascending.
  - by rewrite (highest_Permutation _ _ _ (sorted_Permutation requests)).
  - apply StronglySorted_cons_le; [apply sorted_StronglySorted|].
    by apply sorted_Forall.
Qed.

Lemma sstf_all_above_witness :
  sstf [82; 170; 140; 190] 50 = Ok (50 :: Py.sorted [82; 170; 140; 190], 190 - 50).
Proof.
  apply (sstf_all_above [82; 170; 140; 190] 50). repeat constructor; lia.
Defined.

(** X7: when no request lies above the head, SSTF serves the requests in
    descending order, and its total is the distance from the head to the
    lowest request. *)
Theorem sstf_all_below (requests : list Z) (head : Z) :
  Forall (λ r, r <= head) requests →
  sstf requests head =
  Ok (head :: reverse (Py.sorted requests), head - lowest head requests).
Proof.
  intros Hall. unfold sstf. cbv zeta.
  rewrite (sstf_loop_descending _ _ _ _ eq_refl Hall). simpl.
  do 2 f_equal. rewrite seek_total_path_cost, path_cost_descending.
  - by rewrite (lowest_Permutation _ _ _ (sorted_Permutation requests)).
  - apply StronglySorted_snoc_le; [apply sorted_StronglySorted|].
    by apply sorted_Forall.
Qed.

Lemma sstf_all_below_witness :
  sstf [43; 24; 16] 50 = Ok (50 :: reverse (Py.sorted [43; 24; 16]), 50 - 16).
Proof.
  apply (sstf_all_below [43; 24; 16] 50). repeat constructor; lia.
Defined.

(** ** Policy lookup by name *)

Lemma algorithms_unknown (algo : string) :
  algo ∉ ["FCFS"; "SSTF"; "SCAN"; "C-SCAN"] →
  Dict.get algorithms algo = Raise KeyError.
Proof.
  intros Hnot. unfold algorithms. simpl.
  repeat (rewrite decide_False; [|intros <-; apply Hnot; set_solver]).
  done.
Qed.

(** X8: with the direction selections as the page holds them (the
    direction of the selected policy chosen, the other [None]),
    [get_algorithm_callable] returns for each of the four names a callable,
    and that callable returns the order and total from which the "Run
    Simulation" handler computes its report. *)
Theorem get_algorithm_callable_agrees
    (disk_size : Z) (algo sd cd : string) (requests : list Z) (head : Z) :
  algo ∈ ["FCFS"; "SSTF"; "SCAN"; "C-SCAN"] →
  let scan_direction := if decide (algo = "SCAN") then Some sd else None in
  let cscan_direction := if decide (algo = "C-SCAN") then Some cd else None in
  ∃ f order total,
    get_algorithm_callable disk_size scan_direction cscan_direction algo
      = Ok f ∧
    f requests head = Ok (order, total) ∧
    run_simulation algo requests head disk_size sd cd =
      (avg_seek ← true_div total (len requests);
       throughput ←
         (if decide (total = 0) then Ok (PyInt 0)
          else PyFloat <$> true_div (len requests) total);
       Ok (Report algo order total avg_seek throughput)).
Proof.
  intros Halgo scan_direction cscan_direction.
  destruct (selected_policy_spec algo requests head disk_size sd cd Halgo)
    as (order & Hsel & _).
  pose proof (run_simulation_eq _ _ _ _ _ _ _ _ Hsel) as Hrun.
  subst scan_direction cscan_direction.
  policy_cases Halgo.
  - exists fcfs, order, (seek_total order). split; [done|]. by split.
  - exists sstf, order, (seek_total order). split; [done|]. by split.
  - exists (λ r h, scan r h disk_size sd), order, (seek_total order).
    split; [done|]. by split.
  - exists (λ r h, c_scan r h disk_size cd), order, (seek_total order).
    split; [done|]. by split.
Qed.

Lemma get_algorithm_callable_agrees_witness :
  ∃ f order total,
    get_algorithm_callable 200 (Some "left") None "SCAN" = Ok f ∧
    f [82; 170; 43] 50 = Ok (order, total) ∧
    order = [50; 43; 0; 82; 170] ∧
    run_simulation "SCAN" [82; 170; 43] 50 200 "left" "right" =
      (avg_seek ← true_div total 3;
       throughput ←
         (if decide (total = 0) then Ok (PyInt 0)
          else PyFloat <$> true_div 3 total);
       Ok (Report "SCAN" order total avg_seek throughput)).
Proof.
  destruct (get_algorithm_callable_agrees 200 "SCAN" "left" "right"
              [82; 170; 43] 50) as (f & order & total & Hf & Hcall & Hrun).
  - by apply (bool_decide_unpack _).
  - exists f, order, total. split; [exact Hf|]. split; [exact Hcall|].
    split; [|exact Hrun].
    injection Hf as <-. vm_compute in Hcall. congruence.
Defined.

(** X9: for a name other than the four policy names
    [get_algorithm_callable] raises [KeyError], whatever the direction
    selections are: the name passes both direction tests and is missing from
    [algorithms]. *)
Theorem unknown_policy_key_error
    (algo : string) (disk_size : Z)
    (scan_direction cscan_direction : option string) :
  algo ∉ ["FCFS"; "SSTF"; "SCAN"; "C-SCAN"] →
  get_algorithm_callable disk_size scan_direction cscan_direction algo
    = Raise KeyError.
Proof.
  intros Hnot.
  assert (algo ≠ "SCAN") as Hs by (intros ->; apply Hnot; set_solver).
  assert (algo ≠ "C-SCAN") as Hc by (intros ->; apply Hnot; set_solver).
  unfold get_algorithm_callable.
  rewrite !(decide_False _ _ Hs), !(decide_False _ _ Hc).
  by apply algorithms_unknown.
Qed.

Lemma unknown_policy_key_error_witness :
  get_algorithm_callable 200 None None "LOOK" = Raise KeyError.
Proof.
  apply (unknown_policy_key_error "LOOK" 200 None None).
  by apply (bool_decide_unpack _).
Defined.

(** ** Splitting text *)

Lemma split_length (sep : Ascii.ascii) (s : string) :
  length (Str.split sep s) = S (occurrences sep s).
Proof.
  induction s as [|c s IH]; simpl; [done|].
  destruct (decide (c = sep)); simpl; [by rewrite IH|].
  destruct (Str.split sep s); simpl in *; [done|lia].
Qed.

Lemma split_cons_sep (sep : Ascii.ascii) (s : string) :
  Str.split sep (String sep s) = EmptyString :: Str.split sep s.
Proof. simpl. by rewrite decide_True. Qed.

Lemma split_cons_other (sep c : Ascii.ascii) (s : string) :
  c ≠ sep →
  ∃ piece pieces, Str.split sep s = piece :: pieces ∧
                  Str.split sep (String c s) = String c piece :: pieces.
Proof.
  intros Hc. pose proof (split_length sep s) as Hlen. simpl.
  rewrite decide_False by done.
  destruct (Str.split sep s) as [|piece pieces]; [done|]. eauto.
Qed.

Lemma split_pieces_free (sep : Ascii.ascii) (s : string) :
  Forall (λ piece, occurrences sep piece = O) (Str.split sep s).
Proof.
  induction s as [|c s IH]; simpl; [by repeat constructor|].
  destruct (decide (c = sep)) as [->|Hc]; [by constructor|].
  destruct (Str.split sep s) as [|piece pieces]; simpl.
  - repeat constructor. simpl. by rewrite decide_False.
  - apply Forall_cons in IH as [Hp Hps]. constructor; [|done].
    simpl. by rewrite decide_False.
Qed.

Lemma split_pieces_keep_free (sep c : Ascii.ascii) (s : string) :
  occurrences c s = O →
  Forall (λ piece, occurrences c piece = O) (Str.split sep s).
Proof.
  induction s as [|a s IH]; simpl; [by repeat constructor|].
  destruct (decide (a = c)) as [->|Ha]; [done|]. intros Hs.
  specialize (IH Hs).
  destruct (decide (a = sep)); [by constructor|].
  destruct (Str.split sep s) as [|piece pieces]; simpl.
  - repeat constructor. simpl. by rewrite decide_False.
  - apply Forall_cons in IH as [Hp Hps]. constructor; [|done].
    simpl. by rewrite decide_False.
Qed.

Lemma remove_occurrences_same (c : Ascii.ascii) (s : string) :
  occurrences c (Str.remove c s) = O.
Proof.
  induction s as [|a s IH]; simpl; [done|].
  destruct (decide (a = c)); simpl; [done|]. by rewrite decide_False.
Qed.

Lemma remove_occurrences_other (c c' : Ascii.ascii) (s : string) :
  c' ≠ c → occurrences c' (Str.remove c s) = occurrences c' s.
Proof.
  intros Hc. induction s as [|a s IH]; simpl; [done|].
  destruct (decide (a = c)) as [->|Ha]; simpl.
  - by rewrite decide_False.
  - destruct (decide (a = c')); by rewrite IH.
Qed.

Lemma remove_free (c : Ascii.ascii) (s : string) :
  occurrences c s = O → Str.remove c s = s.
Proof.
  induction s as [|a s IH]; simpl; [done|].
  destruct (decide (a = c)); [done|]. intros Hs. by rewrite IH.
Qed.

Lemma split_free (sep : Ascii.ascii) (s : string) :
  occurrences sep s = O → Str.split sep s = [s].
Proof.
  induction s as [|a s IH]; simpl; [done|].
  destruct (decide (a = sep)); [done|]. intros Hs. by rewrite IH.
Qed.

Lemma occurrences_app (c : Ascii.ascii) (s t : string) :
  occurrences c (s +:+ t) = (occurrences c s + occurrences c t)%nat.
Proof.
  induction s as [|a s IH]; simpl; [done|].
  destruct (decide (a = c)); simpl; by rewrite IH.
Qed.

Lemma split_app_sep (sep : Ascii.ascii) (piece rest : string) :
  occurrences sep piece = O →
  Str.split sep (piece +:+ String sep rest) = piece :: Str.split sep rest.
Proof.
  induction piece as [|a piece IH]; simpl.
  - intros _. by rewrite decide_True.
  - destruct (decide (a = sep)); [done|]. intros Hp. by rewrite IH.
Qed.

Lemma remove_app (c : Ascii.ascii) (s t : string) :
  Str.remove c (s +:+ t) = Str.remove c s +:+ Str.remove c t.
Proof.
  induction s as [|a s IH]; simpl; [done|].
  destruct (decide (a = c)); simpl; by rewrite IH.
Qed.

(** ** [list(map(int, pieces))] *)

Section mapM.
Context {A B : Type} (f : A → result B).

Lemma mapM_Ok (l : list A) (l' : list B) :
  result_mapM f l = Ok l' ↔ Forall2 (λ x y, f x = Ok y) l l'.
Proof.
  revert l'. induction l as [|x l IH]; intros l'; simpl.
  - split; [by intros [= <-]; constructor|by intros ->%Forall2_nil_inv_l].
  - split.
    + destruct (f x) as [y|e] eqn:Hx; [|done]. cbn.
      destruct (result_mapM f l) as [ys|e] eqn:Hl; [|done]. cbn.
      intros [= <-]. constructor; [done|]. by apply IH.
    + intros (y & ys & Hx & Hl & ->)%Forall2_cons_inv_l.
      rewrite Hx. cbn. apply IH in Hl. rewrite Hl. done.
Qed.

Lemma mapM_Raise (l : list A) (e : exn) :
  result_mapM f l = Raise e → ∃ x, x ∈ l ∧ f x = Raise e.
Proof.
  induction l as [|x l IH]; simpl; [done|].
  destruct (f x) as [y|e'] eqn:Hx; cbn.
  - destruct (result_mapM f l) as [ys|e'] eqn:Hl; cbn; [done|].
    intros [= ->]. destruct (IH eq_refl) as (x' & Hin & Hx').
    exists x'. split; [by apply elem_of_cons; right|done].
  - intros [= ->]. exists x. split; [by apply elem_of_cons; left|done].
Qed.

Lemma mapM_length (l : list A) (l' : list B) :
  result_mapM f l = Ok l' → length l' = length l.
Proof. intros Hl%mapM_Ok. symmetry. by eapply Forall2_length. Qed.
End mapM.

(** ** From the text field to the requests *)

Section parsing_facts.
Variable py_int : string → result Z.

Lemma requests_of_length req_str requests :
  requests_of py_int req_str = Ok requests →
  length requests = S (occurrences ","%char req_str).
Proof.
  intros Hreq%mapM_length. by rewrite Hreq, split_length.
Qed.

(** X10: the handlers' parsing succeeds exactly when [int] accepts every
    comma-separated piece of the text; the requests are then the values of
    the pieces in order, one more than there are commas, so never an empty
    list. *)
Theorem requests_of_pieces (req_str : string) (requests : list Z) :
  requests_of py_int req_str = Ok requests ↔
  Forall2 (λ piece r, py_int piece = Ok r)
    (Str.split ","%char req_str) requests ∧
  length requests = S (occurrences ","%char req_str) ∧
  requests ≠ [].
Proof.
  split.
  - intros Hreq. pose proof (requests_of_length _ _ Hreq) as Hlen.
    split; [by apply mapM_Ok|]. split; [done|]. by destruct requests.
  - intros (Hall & _ & _). by apply mapM_Ok.
Qed.

(** X11: from the text field on, neither handler can end in a division by
    zero: whatever the text, either [int] rejects a piece and that error is
    the outcome of both handlers, or the request list is non-empty and each
    handler returns its result unless one of its float divisions raises
    [OverflowError]. *)
Theorem handlers_from_text
    (algo req_str : string) (head disk_size : Z) (sd cd : string) :
  algo ∈ ["FCFS"; "SSTF"; "SCAN"; "C-SCAN"] →
  match requests_of py_int req_str with
  | Raise e =>
      run_simulation_handler py_int algo req_str head disk_size sd cd
        = Raise e ∧
      compare_all_handler py_int req_str head disk_size = Raise e
  | Ok requests =>
      requests ≠ [] ∧
      run_simulation_handler py_int algo req_str head disk_size sd cd
        = run_simulation algo requests head disk_size sd cd ∧
      compare_all_handler py_int req_str head disk_size
        = compare_all requests head disk_size ∧
      (∀ e, run_simulation_handler py_int algo req_str head disk_size sd cd
              = Raise e → e = OverflowError) ∧
      (∀ e, compare_all_handler py_int req_str head disk_size = Raise e →
            e = OverflowError)
  end.
Proof.
  intros Halgo. unfold run_simulation_handler, compare_all_handler.
  destruct (requests_of py_int req_str) as [requests|e] eqn:Hreq; [|done].
  assert (requests ≠ []) as Hne.
  { apply requests_of_length in Hreq. by destruct requests. }
  split; [done|]. cbn. split; [done|]. split; [done|]. split.
  - by apply run_simulation_raise.
  - by apply compare_all_raise.
Qed.

(** X12: [parse_requests] returns a list exactly when [int] accepts every
    piece of the text with its spaces removed and split at the commas; the
    list then holds the values of the pieces in order, is one longer than
    the number of commas of the text, and no piece handed to [int] holds a
    space or a comma.  It returns [None] exactly when [int] rejects a
    piece. *)
Theorem parse_requests_pieces (req_str : string) :
  let pieces := Str.split ","%char (Str.remove " "%char req_str) in
  Forall (λ piece, occurrences " "%char piece = O ∧
                   occurrences ","%char piece = O) pieces ∧
  (∀ req_list,
     parse_requests py_int req_str = Some req_list ↔
     Forall2 (λ piece r, py_int piece = Ok r) pieces req_list) ∧
  (∀ req_list,
     parse_requests py_int req_str = Some req_list →
     length req_list = S (occurrences ","%char req_str)) ∧
  (parse_requests py_int req_str = None ↔
   ∃ piece e, piece ∈ pieces ∧ py_int piece = Raise e).
Proof.
  intros pieces. unfold parse_requests. fold pieces.
  split; [|split; [|split]].
  - apply Forall_and. split.
    + apply split_pieces_keep_free, remove_occurrences_same.
    + apply split_pieces_free.
  - intros req_list. rewrite <- mapM_Ok.
    destruct (result_mapM py_int pieces); naive_solver.
  - intros req_list.
    destruct (result_mapM py_int pieces) as [l|e] eqn:Hl; [|done].
    intros [= ->]. apply mapM_length in Hl. rewrite Hl. unfold pieces.
    by rewrite split_length, remove_occurrences_other.
  - destruct (result_mapM py_int pieces) as [l|e] eqn:Hl.
    + split; [done|]. intros (piece & e & Hin & He).
      apply mapM_Ok in Hl.
      apply list_elem_of_lookup in Hin as [i Hi].
      destruct (Forall2_lookup_l _ _ _ _ _ Hl Hi) as (r & _ & Hr).
      congruence.
    + split; [|done]. intros _.
      destruct (mapM_Raise _ _ _ Hl) as (piece & Hin & He). eauto.
Qed.

End parsing_facts.

(** ** The empty request list *)

(** C7, as the code has it: on the empty request list no policy function
    fails; each returns a short order (the head, and the boundary entries for
    SCAN and C-SCAN) and its total.  The handlers never hold an empty request
    list: parsing yields at least one request or raises, and on empty text,
    where [int] raises [ValueError], that error is the outcome of both
    handlers before any policy runs. *)
Theorem empty_requests_returned
    (py_int : string → result Z) (algo : string) (head disk_size : Z)
    (sd cd : string) :
  py_int "" = Raise ValueError →
  fcfs [] head = Ok ([head], 0) ∧
  sstf [] head = Ok ([head], 0) ∧
  scan [] head disk_size sd =
    (let b := if decide (sd = "right") then disk_size - 1 else 0 in
     Ok ([head; b], Z.abs (b - head))) ∧
  c_scan [] head disk_size cd =
    (let order := if decide (cd = "right") then [head; disk_size - 1; 0]
                  else [head; 0; disk_size - 1] in
     Ok (order, path_cost order)) ∧
  (∀ req_str, requests_of py_int req_str ≠ Ok []) ∧
  run_simulation_handler py_int algo "" head disk_size sd cd
    = Raise ValueError ∧
  compare_all_handler py_int "" head disk_size = Raise ValueError.
Proof.
  intros Hint.
  assert (scan [] head disk_size sd =
    (let b := if decide (sd = "right") then disk_size - 1 else 0 in
     Ok ([head; b], Z.abs (b - head)))) as Hscan.
  { unfold scan. cbv zeta. destruct (decide (sd = "right")); cbn;
      do 2 f_equal; lia. }
  assert (c_scan [] head disk_size cd =
    (let order := if decide (cd = "right") then [head; disk_size - 1; 0]
                  else [head; 0; disk_size - 1] in
     Ok (order, path_cost order))) as Hcscan.
  { unfold c_scan. cbv zeta. rewrite seek_total_path_cost.
    by destruct (decide (cd = "right")). }
  assert (requests_of py_int "" = Raise ValueError) as Hempty.
  { unfold requests_of. simpl. by rewrite Hint. }
  split; [done|]. split; [done|]. split; [done|]. split; [done|].
  split; [|split].
  - intros req_str Hreq. by apply requests_of_length in Hreq.
  - unfold run_simulation_handler. by rewrite Hempty.
  - unfold compare_all_handler. by rewrite Hempty.
Qed.

Lemma empty_requests_returned_witness :
  sstf [] 50 = Ok ([50], 0) ∧
  run_simulation_handler decimal_int "SSTF" "" 50 200 "right" "right"
    = Raise ValueError.
Proof.
  destruct (empty_requests_returned decimal_int "SSTF" 50 200 "right" "right")
    as (_ & Hsstf & _ & _ & _ & Hrun & _).
  - reflexivity.
  - exact (conj Hsstf Hrun).
Defined.

(** C7 as stated fails: on the empty request list FCFS returns the
    one-entry order with total 0, and SCAN the head and its boundary entry,
    instead of an error. *)
Lemma empty_requests_counterexample :
  fcfs [] 50 = Ok ([50], 0) ∧
  scan [] 50 200 "right" = Ok ([50; 199], 149).
Proof. split; vm_compute; reflexivity. Qed.

(** ** The generated text and its way back *)

Lemma digits_free (c : Ascii.ascii) (d : Decimal.uint) :
  c = ","%char ∨ c = " "%char →
  occurrences c (NilEmpty.string_of_uint d) = O.
Proof.
  intros Hc. induction d as [|d IH|d IH|d IH|d IH|d IH|d IH|d IH|d IH|d IH|d IH];
    simpl; [done|..];
    (rewrite decide_False; [done|by intros <-; destruct Hc]).
Qed.

Lemma py_str_free (c : Ascii.ascii) (z : Z) :
  c = ","%char ∨ c = " "%char → occurrences c (py_str z) = O.
Proof.
  intros Hc. unfold py_str.
  assert (∀ d, occurrences c (NilZero.string_of_uint d) = O) as Hu.
  { intros d. unfold NilZero.string_of_uint.
    destruct d; try apply (digits_free c _ Hc).
    simpl. rewrite decide_False; [done|by intros <-; destruct Hc]. }
  destruct z as [|p|p]; simpl.
  - rewrite decide_False; [done|by intros <-; destruct Hc].
  - apply Hu.
  - rewrite decide_False; [apply Hu|by intros <-; destruct Hc].
Qed.

Lemma remove_join_spaces (pieces : list string) :
  Forall (λ piece, occurrences " "%char piece = O) pieces →
  Str.remove " "%char (Str.join ", " pieces) = Str.join "," pieces.
Proof.
  induction 1 as [|piece pieces Hp _ IH]; [done|].
  destruct pieces as [|piece' pieces]; [by apply remove_free|].
  change (Str.remove " "%char (piece +:+ ", " +:+ Str.join ", " (piece' :: pieces))
          = piece +:+ "," +:+ Str.join "," (piece' :: pieces)).
  rewrite !remove_app, IH, (remove_free _ _ Hp). done.
Qed.

Lemma split_join_commas (piece : string) (pieces : list string) :
  Forall (λ p, occurrences ","%char p = O) (piece :: pieces) →
  Str.split ","%char (Str.join "," (piece :: pieces)) = piece :: pieces.
Proof.
  revert piece. induction pieces as [|piece' pieces IH]; intros piece Hall.
  - apply Forall_cons in Hall as [Hp _]. by apply split_free.
  - apply Forall_cons in Hall as [Hp Hall].
    change (Str.split ","%char
              (piece +:+ String ","%char (Str.join "," (piece' :: pieces)))
            = piece :: piece' :: pieces).
    rewrite (split_app_sep _ _ _ Hp). by rewrite IH.
Qed.

Lemma split_join_comma_space (piece : string) (pieces : list string) :
  Forall (λ p, occurrences ","%char p = O) (piece :: pieces) →
  Str.split ","%char (Str.join ", " (piece :: pieces)) =
  piece :: (String " "%char <$> pieces).
Proof.
  revert piece. induction pieces as [|piece' pieces IH]; intros piece Hall.
  - apply Forall_cons in Hall as [Hp _]. by apply split_free.
  - apply Forall_cons in Hall as [Hp Hall].
    change (Str.split ","%char
              (piece +:+ String ","%char
                 (String " "%char (Str.join ", " (piece' :: pieces))))
            = piece :: (String " "%char <$> piece' :: pieces)).
    rewrite (split_app_sep _ _ _ Hp). f_equal.
    destruct (split_cons_other ","%char " "%char
                (Str.join ", " (piece' :: pieces)) ltac:(done))
      as (p & ps & Hsplit & ->).
    rewrite (IH piece' Hall) in Hsplit. by injection Hsplit as <- <-.
Qed.

(** X13: the text built for a non-empty sample parses back to that sample,
    through [parse_requests] and through the handlers' own parsing, given
    that [int] reads back what [str] writes, also after one space. *)
Theorem random_requests_text_parses_back
    (py_int : string → result Z) (sample : list Z) :
  (∀ z, py_int (py_str z) = Ok z) →
  (∀ z, py_int (String " "%char (py_str z)) = Ok z) →
  sample ≠ [] →
  parse_requests py_int (random_requests_text sample) = Some sample ∧
  requests_of py_int (random_requests_text sample) = Ok sample.
Proof.
  intros Hstr Hspace Hne. destruct sample as [|z sample]; [done|].
  unfold parse_requests, requests_of, random_requests_text.
  assert (Forall (λ p, occurrences ","%char p = O) (py_str <$> z :: sample))
    as Hcommas.
  { apply Forall_fmap, Forall_forall. intros x _. apply py_str_free. by left. }
  assert (Forall (λ p, occurrences " "%char p = O) (py_str <$> z :: sample))
    as Hspaces.
  { apply Forall_fmap, Forall_forall. intros x _. apply py_str_free. by right. }
  rewrite (remove_join_spaces _ Hspaces). rewrite fmap_cons in *.
  rewrite (split_join_commas _ _ Hcommas), (split_join_comma_space _ _ Hcommas).
  assert (result_mapM py_int (py_str <$> sample) = Ok sample) as Hplain.
  { apply mapM_Ok. clear -Hstr. induction sample; constructor; auto. }
  assert (result_mapM py_int (String " "%char <$> (py_str <$> sample))
          = Ok sample) as Hspaced.
  { apply mapM_Ok. clear -Hspace. induction sample; constructor; auto. }
  cbn [result_mapM]. rewrite Hstr. cbn. rewrite Hplain, Hspaced. done.
Qed.

Lemma lstrip_free (s : string) : occurrences " "%char s = O → lstrip s = s.
Proof. destruct s as [|c s]; simpl; [done|]. by destruct (decide (c = " "%char)). Qed.

Lemma lstrip_space (s : string) : lstrip (String " "%char s) = lstrip s.
Proof. reflexivity. Qed.

Lemma decimal_int_py_str (z : Z) : decimal_int (py_str z) = Ok z.
Proof.
  unfold decimal_int.
  rewrite lstrip_free by (apply py_str_free; by right).
  unfold py_str. rewrite NilZero.isi.
  - by rewrite DecimalZ.of_to.
  - destruct z as [|p|p]; simpl; [done| |done].
    intros [= Hp]. by apply DecimalPos.Unsigned.to_uint_nonnil in Hp.
  - destruct z as [|p|p]; simpl; [done..|].
    intros [= Hp]. by apply DecimalPos.Unsigned.to_uint_nonnil in Hp.
Qed.

Lemma decimal_int_space_py_str (z : Z) :
  decimal_int (String " "%char (py_str z)) = Ok z.
Proof.
  pose proof (decimal_int_py_str z) as Hz. unfold decimal_int in *.
  by rewrite lstrip_space.
Qed.

Lemma random_requests_text_parses_back_witness :
  parse_requests decimal_int (random_requests_text [82; 170; 43])
    = Some [82; 170; 43] ∧
  requests_of decimal_int (random_requests_text [82; 170; 43])
    = Ok [82; 170; 43].
Proof.
  apply (random_requests_text_parses_back decimal_int [82; 170; 43]
           decimal_int_py_str decimal_int_space_py_str).
  discriminate.
Defined.

Lemma handlers_from_text_witness :
  requests_of decimal_int "82, 170, 43" = Ok [82; 170; 43] ∧
  (∀ e, run_simulation_handler decimal_int "SSTF" "82, 170, 43" 50 200
          "right" "right" = Raise e → e = OverflowError) ∧
  (∀ e, compare_all_handler decimal_int "82, 170, 43" 50 200 = Raise e →
        e = OverflowError).
Proof.
  pose proof (handlers_from_text decimal_int "SSTF" "82, 170, 43" 50 200
                "right" "right") as Hh.
  assert (requests_of decimal_int "82, 170, 43" = Ok [82; 170; 43]) as Hreq
    by (vm_compute; reflexivity).
  rewrite Hreq in Hh. split; [exact Hreq|].
  apply Hh. by apply (bool_decide_unpack _).
Defined.

(** The overflow is real: the text of the request [10^400] parses, every
    policy runs, and both handlers end in [OverflowError]. *)
Example handlers_overflow :
  let text := py_str (10 ^ 400) in
  requests_of decimal_int text = Ok [10 ^ 400] ∧
  run_simulation_handler decimal_int "FCFS" text 50 200 "right" "right"
    = Raise OverflowError ∧
  compare_all_handler decimal_int text 50 200 = Raise OverflowError.
Proof. repeat split; vm_compute; reflexivity. Qed.

(** The two parsers differ on text with a space inside a number: there
    [parse_requests] joins the digits while the handlers hand the piece to
    [int] as it is. *)
Example parse_requests_joins_digits :
  parse_requests decimal_int "8 2,43" = Some [82; 43] ∧
  requests_of decimal_int "8 2,43" = Raise ValueError.
Proof. split; vm_compute; reflexivity. Qed.

(** ** The animation *)

Lemma moves_lookup (order : list Z) (i : nat) :
  (S i < length order)%nat →
  moves order !! i = Some (order !!! i, order !!! S i).
Proof.
  revert i. induction order as [|x [|y l] IH]; intros i Hi;
    [simpl in Hi; lia..|].
  destruct i as [|i]; [done|].
  change (moves (y :: l) !! i = Some ((y :: l) !!! i, (y :: l) !!! S i)).
  apply IH. simpl in *. lia.
Qed.

Lemma moves_length (order : list Z) :
  length (moves order) = (length order - 1)%nat.
Proof.
  induction order as [|x [|y l] IH]; [done..|].
  change (S (length (moves (y :: l))) = (length (x :: y :: l) - 1)%nat).
  rewrite IH. simpl. lia.
Qed.

Lemma moves_cost (order : list Z) :
  Py.sum ((λ m, Z.abs (m.2 - m.1)) <$> moves order) = seek_total order.
Proof.
  rewrite seek_total_path_cost.
  induction order as [|x [|y l] IH]; [done..|].
  change (Py.sum (Z.abs (y - x) :: ((λ m, Z.abs (m.2 - m.1)) <$> moves (y :: l)))
          = Z.abs (y - x) + path_cost (y :: l)).
  by rewrite sum_cons, IH.
Qed.

Lemma animate_loop_frames (order : list Z) (speed : number) (n : nat) :
  ∀ i, (1 <= i)%nat → (i + n = length order)%nat →
  animate_loop order speed (seq i n) (take (i - 1) (moves order)) =
  seq i n ≫= λ k, [st_plotly_chart (take k (moves order)); time_sleep speed].
Proof.
  induction n as [|n IH]; intros i Hi Hlen; [done|].
  cbn [seq animate_loop]. cbv zeta.
  assert (take (i - 1) (moves order) ++ [(order !!! (i - 1)%nat, order !!! i)]
          = take i (moves order)) as ->.
  { destruct i as [|i]; [lia|]. replace (S i - 1)%nat with i by lia.
    symmetry. apply take_S_r, moves_lookup. lia. }
  specialize (IH (S i)). replace (S i - 1)%nat with i in IH by lia.
  rewrite IH by lia. done.
Qed.

(** X14: [animate] writes the heading and then, for each move of the order
    in turn, shows one figure holding the moves made so far (the k-th figure
    holds the first k moves) and sleeps once for [speed] after it; nothing
    else is sent.  There is one move per entry after the first, and the
    lengths of the moves add up to the seek total of the order. *)
Theorem animate_frames (order : list Z) (speed : number) :
  animate order speed =
    st_write "### 🎬 Disk Head Animation" ::
    (seq 1 (length order - 1) ≫= λ k,
       [st_plotly_chart (take k (moves order)); time_sleep speed]) ∧
  length (moves order) = (length order - 1)%nat ∧
  (∀ i : nat, (S i < length order)%nat →
     moves order !! i = Some (order !!! i, order !!! S i)) ∧
  Py.sum ((λ m, Z.abs (m.2 - m.1)) <$> moves order) = seek_total order.
Proof.
  split; [|split; [apply moves_length|split; [apply moves_lookup|apply moves_cost]]].
  unfold animate, Py.range. f_equal.
  destruct order as [|x order]; [done|].
  apply (animate_loop_frames (x :: order) speed (length (x :: order) - 1) 1);
    [lia|simpl; lia].
Qed.

(** ** SSTF: equal requests *)

Lemma unvisited_drop (requests visited : list Z) (i : nat) :
  visited ≡ₚ requests →
  unvisited requests (take i visited) ≡ₚ drop i visited.
Proof.
  intros Hperm.
  apply (Permutation_app_inv_l (take i visited)).
  rewrite take_drop. etrans; [|symmetry; exact Hperm]. symmetry.
  apply (unvisited_Permutation _ _ (drop i visited)).
  rewrite take_drop. by symmetry.
Qed.

(** X15: SSTF serves equal positions back to back: when the value at some
    place of its order occurs again later, it is also the next entry.  In
    particular requests at the head position are served first. *)
Theorem sstf_equal_requests_adjacent (requests : list Z) (head : Z) :
  ∃ order,
    sstf requests head = Ok (order, seek_total order) ∧
    ∀ (i j : nat) x,
      (i < j)%nat → order !! i = Some x → order !! j = Some x →
      order !! S i = Some x.
Proof.
  destruct (sstf_spec requests head) as (visited & Hsstf & Hperm & Hstep).
  exists (head :: visited). split; [done|].
  intros i j x Hij Hi Hj.
  destruct j as [|j]; [lia|]. simpl in Hj.
  destruct (visited !! i) as [y|] eqn:Hy.
  2:{ apply lookup_ge_None in Hy. apply lookup_lt_Some in Hj. lia. }
  simpl. rewrite Hy. f_equal.
  destruct (Hstep i y Hy) as (_ & _ & Hmin & _).
  assert (previous head visited i = x) as Hprev.
  { destruct i as [|i]; simpl in *; [congruence|].
    by rewrite (list_lookup_total_correct _ _ _ Hi). }
  rewrite Hprev in Hmin.
  assert (x ∈ unvisited requests (take i visited)) as Hin.
  { rewrite (unvisited_drop _ _ i Hperm).
    apply list_elem_of_lookup. exists (j - i)%nat.
    rewrite lookup_drop. by replace (i + (j - i))%nat with j by lia. }
  specialize (Hmin x Hin). simpl in Hmin. lia.
Qed.

Lemma sstf_equal_requests_adjacent_witness :
  ∃ order,
    sstf [82; 43; 50; 43; 50] 50 = Ok (order, seek_total order) ∧
    order !! 1%nat = Some 50.
Proof.
  destruct (sstf_equal_requests_adjacent [82; 43; 50; 43; 50] 50)
    as (order & Hsstf & Hadj).
  exists order. split; [exact Hsstf|].
  assert (order = [50; 50; 50; 43; 43; 82]) as Horder.
  { vm_compute in Hsstf. congruence. }
  apply (Hadj 0%nat 2%nat 50).
  - lia.
  - by rewrite Horder.
  - by rewrite Horder.
Defined.

(** ** FCFS: batches *)

(** X16: under FCFS serving a batch that ends at [x] and then a second
    batch costs the total of the first batch from the head plus the total of
    the second batch from [x]. *)
Theorem fcfs_batches (first second : list Z) (x head : Z) :
  ∃ order total order1 total1 order2 total2,
    fcfs ((first ++ [x]) ++ second) head = Ok (order, total) ∧
    fcfs (first ++ [x]) head = Ok (order1, total1) ∧
    fcfs second x = Ok (order2, total2) ∧
    order = order1 ++ second ∧
    total = total1 + total2.
Proof.
  eexists _, _, _, _, _, _. repeat split.
  rewrite !seek_total_path_cost.
  change ([head] ++ (first ++ [x]) ++ second)
    with (head :: (first ++ [x]) ++ second).
  rewrite <- app_assoc. simpl.
  change (path_cost ((head :: first) ++ x :: second) =
          path_cost ((head :: first) ++ [x]) + path_cost (x :: second)).
  apply path_cost_app.
Qed.
